(** * SETS translation pipeline: extraction, client, scheduler, replacement

    A shallow embedding of [SETSv0.2.1.py].  Python [str] values are lists of
    Unicode code points; the regular expressions of the program are values of
    a small abstract syntax and are run by a backtracking matcher that follows
    the priority rules of Python's [re] (greedy and lazy repetition of a
    character class, ordered alternation, capture groups, back references).
    The translation client is a state-passing function over the cache and a
    network oracle, and returns the events (requests, sleeps, cache writes)
    that one call performs.  The replacement engine builds the syntax tree
    of each pattern whose text is literal; a pattern whose tag holds a
    metacharacter is kept as text and handed to [re.sub], a parameter. *)

From Stdlib Require Import NArith Ascii String List Bool Lia Permutation.
From stdpp Require Import base option list gmap.
Import ListNotations.
Local Open Scope N_scope.

(** ** Python strings *)

Module PyStr.

Definition char := N.
Definition str := list char.

(** The code point of an ASCII character and of an ASCII literal. *)
Definition ch (a : ascii) : char := N_of_ascii a.
Definition lit (s : string) : str := List.map ch (list_ascii_of_string s).

(** [str.isspace] on one code point, which is also the class [\s] of a
    Unicode pattern. *)
Definition is_space (c : char) : bool :=
  ((9 <=? c) && (c <=? 13)) || ((28 <=? c) && (c <=? 32))
  || (c =? 133) || (c =? 160) || (c =? 5760)
  || ((8192 <=? c) && (c <=? 8202))
  || (c =? 8232) || (c =? 8233) || (c =? 8239) || (c =? 8287) || (c =? 12288).

Fixpoint lstrip (s : str) : str :=
  match s with
  | c :: t => if is_space c then lstrip t else s
  | [] => []
  end.

Definition rstrip (s : str) : str := rev (lstrip (rev s)).

(** [s.strip()] *)
Definition strip (s : str) : str := rstrip (lstrip s).

(** [a == b] on strings. *)
Fixpoint str_eqb (a b : str) : bool :=
  match a, b with
  | [], [] => true
  | x :: a', y :: b' => (x =? y) && str_eqb a' b'
  | _, _ => false
  end.

(** [s.startswith(p)], returning what follows the prefix. *)
Fixpoint strip_prefix (p s : str) : option str :=
  match p, s with
  | [], _ => Some s
  | a :: p', x :: s' => if a =? x then strip_prefix p' s' else None
  | _ :: _, [] => None
  end.

(** [p in s] *)
Fixpoint contains (p s : str) : bool :=
  match strip_prefix p s with
  | Some _ => true
  | None => match s with
            | [] => false
            | _ :: t => contains p t
            end
  end.

(** The start positions of the occurrences of [p] in [s]. *)
Fixpoint occurrences_from (i : nat) (p s : str) : list nat :=
  match strip_prefix p s with
  | Some _ => [i]
  | None => []
  end
  ++ match s with
     | [] => []
     | _ :: t => occurrences_from (S i) p t
     end.

Definition occurrences (p s : str) : list nat := occurrences_from 0 p s.

(** The lower-case mapping the [re] engine applies under IGNORECASE, on the
    code points whose image is an ASCII letter (A-Z, U+0130 and U+212A);
    the patterns of this program only compare against ASCII letters and
    against U+0131 and U+017F, which no other code point maps to. *)
Definition sre_lower (c : char) : char :=
  if (65 <=? c) && (c <=? 90) then c + 32
  else if c =? 304 then 105
  else if c =? 8490 then 107
  else c.

(** A literal pattern character [p] against a subject character [c] under
    IGNORECASE: equal lower case, or one of the engine's two extra
    equivalences that concern the letters of the patterns, i with U+0131 and
    s with U+017F. *)
Definition ci_lit (p c : char) : bool :=
  let lo := sre_lower p in
  (sre_lower c =? lo)
  || ((lo =? 105) && (c =? 305))
  || ((lo =? 115) && (c =? 383)).

(** A back reference under IGNORECASE compares lower cases only. *)
Definition ci_ref (g c : char) : bool := sre_lower c =? sre_lower g.

End PyStr.
Export PyStr.

(** ** The regular-expression engine *)

Module Re.

Inductive regex : Type :=
| Eps
| Chr (p : char -> bool)
| Str (e : char -> char -> bool) (l : str)
| Seq (a b : regex)
| Alt (a b : regex)
| Star (p : char -> bool)
| Lazy (p : char -> bool)
| Cap (g : nat) (a : regex)
| Ref (e : char -> char -> bool) (g : nat)
| Bol.

Definition Plus (p : char -> bool) : regex := Seq (Chr p) (Star p).
Definition Opt (a : regex) : regex := Alt a Eps.

(** Capture groups of a match in progress: the latest binding of a group
    comes first. *)
Definition caps := list (nat * str).

Fixpoint cap_get (g : nat) (c : caps) : option str :=
  match c with
  | [] => None
  | (h, v) :: c' => if Nat.eqb h g then Some v else cap_get g c'
  end.

Definition cap_set (g : nat) (v : str) (c : caps) : caps := (g, v) :: c.

(** The number of groups of a pattern. *)
Fixpoint groups (r : regex) : nat :=
  match r with
  | Seq a b | Alt a b => Nat.max (groups a) (groups b)
  | Cap g a => Nat.max g (groups a)
  | _ => 0%nat
  end.

(** [prefix_by e l s]: the literal [l] read off the front of [s], characters
    compared with [e]. *)
Fixpoint prefix_by (e : char -> char -> bool) (l s : str) : option str :=
  match l, s with
  | [], _ => Some s
  | a :: l', x :: s' => if e a x then prefix_by e l' s' else None
  | _ :: _, [] => None
  end.

Section Matcher.
Context {R : Type}.

(** The length of the whole subject, for [^]. *)
Variable total : nat.

(** Greedy [p*]: take as many characters as [p] allows, give them back one
    at a time while the rest of the pattern fails. *)
Fixpoint star_greedy (p : char -> bool) (k : str -> option R) (s : str)
  : option R :=
  match s with
  | x :: t =>
      if p x then
        match star_greedy p k t with
        | Some r => Some r
        | None => k s
        end
      else k s
  | [] => k s
  end.

(** Lazy [p*?]: try the rest of the pattern first, take one more character
    each time it fails. *)
Fixpoint star_lazy (p : char -> bool) (k : str -> option R) (s : str)
  : option R :=
  match k s with
  | Some r => Some r
  | None =>
      match s with
      | x :: t => if p x then star_lazy p k t else None
      | [] => None
      end
  end.

(** [exec r k s c]: match [r] at the front of [s] with groups [c], then
    run the continuation [k] on what is left; [None] makes the engine
    backtrack into the latest choice. *)
Fixpoint exec (r : regex) (k : str -> caps -> option R) (s : str) (c : caps)
  : option R :=
  match r with
  | Eps => k s c
  | Chr p =>
      match s with
      | x :: t => if p x then k t c else None
      | [] => None
      end
  | Str e l =>
      match prefix_by e l s with
      | Some t => k t c
      | None => None
      end
  | Seq a b => exec a (exec b k) s c
  | Alt a b =>
      match exec a k s c with
      | Some r => Some r
      | None => exec b k s c
      end
  | Star p => star_greedy p (fun t => k t c) s
  | Lazy p => star_lazy p (fun t => k t c) s
  | Cap g a =>
      exec a (fun t c' =>
                k t (cap_set g (firstn (length s - length t) s) c')) s c
  | Ref e g =>
      match cap_get g c with
      | Some v =>
          match prefix_by e v s with
          | Some t => k t c
          | None => None
          end
      | None => None
      end
  | Bol => if Nat.eqb (length s) total then k s c else None
  end.
End Matcher.

(** One match attempt at the front of [s]: what follows the match, and the
    groups. *)
Definition match_at (r : regex) (total : nat) (s : str) : option (str * caps) :=
  exec total r (fun t c => Some (t, c)) s [].

(** [pattern.finditer(s)]: scan left to right; after a match the scan
    resumes where the match ended ([skip] counts the characters of a match
    still to pass).  Every pattern of this program consumes at least one
    character, so the engine's rule for empty matches is not modelled. *)
Fixpoint scan (r : regex) (total : nat) (skip : nat) (s : str)
  : list (str * caps) :=
  match s with
  | [] => []
  | _ :: t =>
      match skip with
      | S n => scan r total n t
      | O =>
          match match_at r total s with
          | Some (rest, c) =>
              let len := (length s - length rest)%nat in
              (firstn len s, c) :: scan r total (Nat.pred len) t
          | None => scan r total 0 t
          end
      end
  end.

Definition finditer (r : regex) (s : str) : list (str * caps) :=
  scan r (length s) 0 s.

(** [re.search(r, s)] as a truth value. *)
Definition search (r : regex) (s : str) : bool :=
  match finditer r s with
  | [] => false
  | _ :: _ => true
  end.

(** *** Replacement templates *)

Inductive titem : Type :=
| TChr (c : char)
| TGrp (g : nat).

Inductive tmode : Type :=
| TNormal
| TName (acc : str).

Definition is_digit (c : char) : bool := (48 <=? c) && (c <=? 57).
Definition is_octdigit (c : char) : bool := (48 <=? c) && (c <=? 55).
Definition is_ascii_letter (c : char) : bool :=
  ((65 <=? c) && (c <=? 90)) || ((97 <=? c) && (c <=? 122)).
Definition digit_val (c : char) : N := c - 48.

Fixpoint decimal (acc : N) (ds : str) : option N :=
  match ds with
  | [] => Some acc
  | d :: t => if is_digit d then decimal (10 * acc + digit_val d) t else None
  end.

(** The index named by [\g<name>]: a run of ASCII digits, as Python 3.12
    reads it (earlier versions also take a sign, blanks or underscores, with
    a deprecation warning); the patterns that are given a template in this
    program have no named group, so any other name is an error. *)
Definition group_index (name : str) : option nat :=
  match name with
  | [] => None
  | _ :: _ => option_map N.to_nat (decimal 0 name)
  end.

Definition tgroup (ng : nat) (i : nat) : option titem :=
  if Nat.leb i ng then Some (TGrp i) else None.

Definition tcons (i : option titem) (r : option (list titem))
  : option (list titem) :=
  match i, r with
  | Some x, Some l => Some (x :: l)
  | _, _ => None
  end.

(** The escapes of a template that stand for one character. *)
Definition escape_char (e : char) : option char :=
  if e =? ch "a" then Some 7
  else if e =? ch "b" then Some 8
  else if e =? ch "f" then Some 12
  else if e =? ch "n" then Some 10
  else if e =? ch "r" then Some 13
  else if e =? ch "t" then Some 9
  else if e =? ch "v" then Some 11
  else if e =? ch "\" then Some 92
  else None.

(** [parse_template]: the replacement string of [re.sub] read as a template
    for a pattern with [ng] groups; [None] is the [re.error] (or
    [IndexError]) the library raises. *)
Fixpoint parse_tpl (ng : nat) (m : tmode) (t : str) : option (list titem) :=
  match m with
  | TName acc =>
      match t with
      | [] => None
      | c :: t' =>
          if c =? ch ">" then
            match group_index (rev acc) with
            | Some i => tcons (tgroup ng i) (parse_tpl ng TNormal t')
            | None => None
            end
          else parse_tpl ng (TName (c :: acc)) t'
      end
  | TNormal =>
      match t with
      | [] => Some []
      | c :: t1 =>
          if negb (c =? ch "\") then tcons (Some (TChr c)) (parse_tpl ng TNormal t1)
          else
            match t1 with
            | [] => None
            | e :: t2 =>
                if e =? ch "g" then
                  match t2 with
                  | l :: t3 =>
                      if l =? ch "<" then parse_tpl ng (TName []) t3 else None
                  | [] => None
                  end
                else if e =? ch "0" then
                  match t2 with
                  | d1 :: t3 =>
                      if is_octdigit d1 then
                        match t3 with
                        | d2 :: t4 =>
                            if is_octdigit d2 then
                              tcons (Some (TChr (N.land (8 * digit_val d1 + digit_val d2) 255)))
                                    (parse_tpl ng TNormal t4)
                            else
                              tcons (Some (TChr (digit_val d1)))
                                    (parse_tpl ng TNormal t3)
                        | [] => Some [TChr (digit_val d1)]
                        end
                      else tcons (Some (TChr 0)) (parse_tpl ng TNormal t2)
                  | [] => Some [TChr 0]
                  end
                else if is_digit e then
                  match t2 with
                  | d1 :: t3 =>
                      if is_digit d1 then
                        match t3 with
                        | d2 :: t4 =>
                            if is_octdigit e && is_octdigit d1 && is_octdigit d2 then
                              let v := 64 * digit_val e + 8 * digit_val d1 + digit_val d2 in
                              if 255 <? v then None
                              else tcons (Some (TChr v)) (parse_tpl ng TNormal t4)
                            else
                              tcons (tgroup ng (N.to_nat (10 * digit_val e + digit_val d1)))
                                    (parse_tpl ng TNormal t3)
                        | [] =>
                            tcons (tgroup ng (N.to_nat (10 * digit_val e + digit_val d1)))
                                  (Some [])
                        end
                      else
                        tcons (tgroup ng (N.to_nat (digit_val e)))
                              (parse_tpl ng TNormal t2)
                  | [] => tcons (tgroup ng (N.to_nat (digit_val e))) (Some [])
                  end
                else
                  match escape_char e with
                  | Some x => tcons (Some (TChr x)) (parse_tpl ng TNormal t2)
                  | None =>
                      if is_ascii_letter e then None
                      else tcons (Some (TChr c))
                                 (tcons (Some (TChr e)) (parse_tpl ng TNormal t2))
                  end
            end
      end
  end.

Definition parse_template (ng : nat) (t : str) : option (list titem) :=
  parse_tpl ng TNormal t.

(** The text a parsed template stands for at one match; a group that took
    no part in the match gives the empty string. *)
Fixpoint expand (items : list titem) (whole : str) (c : caps) : str :=
  match items with
  | [] => []
  | TChr x :: r => x :: expand r whole c
  | TGrp O :: r => whole ++ expand r whole c
  | TGrp g :: r =>
      match cap_get g c with
      | Some v => v ++ expand r whole c
      | None => expand r whole c
      end
  end.

(** The scan of [re.sub]: characters outside the matches are copied, each
    match is replaced by the expanded template. *)
Fixpoint sub_scan (r : regex) (total : nat) (items : list titem)
  (skip : nat) (s : str) : str :=
  match s with
  | [] => []
  | x :: t =>
      match skip with
      | S n => sub_scan r total items n t
      | O =>
          match match_at r total s with
          | Some (rest, c) =>
              let len := (length s - length rest)%nat in
              expand items (firstn len s) c
              ++ match len with
                 | O => x :: sub_scan r total items 0 t
                 | S n => sub_scan r total items n t
                 end
          | None => x :: sub_scan r total items 0 t
          end
      end
  end.

(** [re.sub(r, repl, s)]: the template is compiled before the scan, so a
    bad template raises even when nothing matches. *)
Definition sub (r : regex) (repl : str) (s : str) : option str :=
  match parse_template (groups r) repl with
  | Some items => Some (sub_scan r (length s) items 0 s)
  | None => None
  end.

(** [re.escape(x)] compiled: the literal [x]. *)
Definition escape (x : str) : regex := Str N.eqb x.

(** *** What a pattern matches

    [den r c w c']: the pattern [r], entered with groups [c], can match
    exactly the string [w] and leave the groups [c'].  This says nothing of
    priorities; [exec] is compared with it below. *)
Definition same_by (e : char -> char -> bool) (l w : str) : Prop :=
  Forall2 (fun a x => e a x = true) l w.

Fixpoint den (r : regex) (c : caps) (w : str) (c' : caps) : Prop :=
  match r with
  | Eps => w = [] /\ c' = c
  | Chr p => (exists x, w = [x] /\ p x = true) /\ c' = c
  | Str e l => same_by e l w /\ c' = c
  | Seq a b =>
      exists w1 w2 c1, w = w1 ++ w2 /\ den a c w1 c1 /\ den b c1 w2 c'
  | Alt a b => den a c w c' \/ den b c w c'
  | Star p | Lazy p => forallb p w = true /\ c' = c
  | Cap g a => exists c1, den a c w c1 /\ c' = cap_set g w c1
  | Ref e g => (exists v, cap_get g c = Some v /\ same_by e v w) /\ c' = c
  | Bol => w = [] /\ c' = c
  end.

(** Patterns without [^]: their matches do not depend on the position. *)
Fixpoint bol_free (r : regex) : bool :=
  match r with
  | Seq a b | Alt a b => bol_free a && bol_free b
  | Cap _ a => bol_free a
  | Bol => false
  | _ => true
  end.

(** [a] is a substring of [s]. *)
Definition substring (a s : str) : Prop := exists pre post, s = pre ++ a ++ post.

(** [rewrites occ rep s out]: [out] is [s] with the occurrences of [occ]
    replaced by [rep], scanning from the left: the leftmost occurrence is
    replaced, the scan resumes after it, and what lies outside the replaced
    occurrences is copied. *)
Inductive rewrites (occ : str -> Prop) (rep : str) : str -> str -> Prop :=
| rw_none s :
    (forall pre w post, s = pre ++ w ++ post -> ~ occ w) ->
    rewrites occ rep s s
| rw_step pre w post out :
    occ w ->
    (forall pre' w' post',
        pre ++ w ++ post = pre' ++ w' ++ post' -> occ w' ->
        (length pre <= length pre')%nat) ->
    rewrites occ rep post out ->
    rewrites occ rep (pre ++ w ++ post) (pre ++ rep ++ out).

Definition no_backslash (t : str) : bool :=
  forallb (fun c => negb (c =? ch "\")) t.

End Re.

(** ** Fragment extractor *)

Module Extractor.
Import Re.

(** A fragment is the tuple [(tag, text, context)] of the source. *)
Record fragment : Type := Fragment {
  tag : str;
  text : str;
  context : option str
}.

Definition SKIP_KEYWORDS : list str :=
  [lit "DisplayName"; lit "Item"; lit "Description"; lit "Group"].

Definition not_char (x : char) (c : char) : bool := negb (c =? x).
Definition any_char (c : char) : bool := true.

(** Group numbers of the extraction pattern, in the order of their opening
    parentheses. *)
Definition g_full_tag : nat := 1.
Definition g_tag : nat := 2.
Definition g_value : nat := 3.
Definition g_simple_tag : nat := 4.
Definition g_simple_text : nat := 5.

(** The block shape: a [data] element with a [name] attribute (a quoted run
    of one or more characters other than the quote, then characters other
    than [>]) around a [value] element; white space is allowed around both
    tags of the [value] element and before the closing [data] tag, and the
    inner text is taken lazily.  Flags DOTALL, IGNORECASE and VERBOSE. *)
Definition block_shape : regex :=
  Cap g_full_tag
    (Seq (Str ci_lit (lit "<"))
    (Seq (Cap g_tag (Str ci_lit (lit "data")))
    (Seq (Plus is_space)
    (Seq (Str ci_lit (lit "name="))
    (Seq (Chr (N.eqb 34))
    (Seq (Plus (not_char 34))
    (Seq (Chr (N.eqb 34))
    (Seq (Star (not_char (ch ">")))
    (Seq (Str ci_lit (lit ">"))
    (Seq (Star is_space)
    (Seq (Str ci_lit (lit "<value>"))
    (Seq (Star is_space)
    (Seq (Cap g_value (Lazy any_char))
    (Seq (Star is_space)
    (Seq (Str ci_lit (lit "</value>"))
    (Seq (Star is_space)
         (Str ci_lit (lit "</data>")))))))))))))))))).

(** The scalar shape: [<(DisplayName|Description|Tooltip)>], white space,
    the inner text taken lazily, white space, and the closing tag that
    refers back to the name matched by the opening one. *)
Definition scalar_shape : regex :=
  Seq (Str ci_lit (lit "<"))
  (Seq (Cap g_simple_tag
          (Alt (Str ci_lit (lit "DisplayName"))
          (Alt (Str ci_lit (lit "Description"))
               (Str ci_lit (lit "Tooltip")))))
  (Seq (Str ci_lit (lit ">"))
  (Seq (Star is_space)
  (Seq (Cap g_simple_text (Lazy any_char))
  (Seq (Star is_space)
  (Seq (Str ci_lit (lit "</"))
  (Seq (Ref ci_ref g_simple_tag)
       (Str ci_lit (lit ">"))))))))).

Definition pattern : regex := Alt block_shape scalar_shape.

(** [match.group(name)] of a group that took part, else the empty string;
    the source only tests the groups for truth and strips them. *)
Definition group (g : nat) (c : caps) : str :=
  match cap_get g c with
  | Some v => v
  | None => []
  end.

Definition truthy (s : str) : bool :=
  match s with
  | [] => false
  | _ :: _ => true
  end.

(** The body of the [finditer] loop: what one match appends to [matches]. *)
Definition fragment_of_match (m : str * caps) : list fragment :=
  let c := snd m in
  if truthy (group g_full_tag c) then
    [Fragment (lit "value") (strip (group g_value c)) (Some (group g_full_tag c))]
  else if truthy (group g_simple_tag c) then
    [Fragment (group g_simple_tag c) (strip (group g_simple_text c)) None]
  else [].

Definition all_matches (content : str) : list fragment :=
  flat_map fragment_of_match (finditer pattern content).

(** [is_chinese]: [re.search] of the class U+4E00 to U+9FFF. *)
Definition chinese_char (c : char) : bool := (19968 <=? c) && (c <=? 40959).
Definition is_chinese (t : str) : bool := search (Chr chinese_char) t.

(** The test that makes the filter loop [continue]. *)
Definition skipped (t : str) : bool :=
  existsb (fun kw => contains kw t) SKIP_KEYWORDS
  || is_chinese t
  || Nat.ltb (length t) 2.

(** [e] is a value element around [inner], its tags spelled in any letter
    case: what the block shape matches around the inner text. *)
Definition value_element_ci (inner e : str) : Prop :=
  exists o a b cl,
    e = o ++ a ++ inner ++ b ++ cl
    /\ same_by ci_lit (lit "<value>") o
    /\ same_by ci_lit (lit "</value>") cl
    /\ forallb is_space a = true /\ forallb is_space b = true.

(** [t] is one of the three scalar tag names, in any letter case. *)
Definition scalar_name (t : str) : Prop :=
  same_by ci_lit (lit "DisplayName") t
  \/ same_by ci_lit (lit "Description") t
  \/ same_by ci_lit (lit "Tooltip") t.

(** [parse_translatable_content], on the decoded content of the file. *)
Definition parse_translatable_content (content : str) : list fragment :=
  List.filter (fun f => negb (skipped (text f))) (all_matches content).

End Extractor.

(** ** Replacement engine *)

Module Replacement.
Import Re.

(** A translation result is the tuple [(tag, original, translated, context)]. *)
Record translation : Type := Translation {
  tr_tag : str;
  tr_original : str;
  tr_translated : str;
  tr_context : option str
}.

(** [<value>\s*ORIGINAL\s*</value>] with [ORIGINAL] escaped. *)
Definition value_pattern (original : str) : regex :=
  Seq (Str N.eqb (lit "<value>"))
  (Seq (Star is_space)
  (Seq (escape original)
  (Seq (Star is_space)
       (Str N.eqb (lit "</value>"))))).

(** The characters that have a meaning of their own in the text of a
    pattern: [. ^ $ * + ? { } [ ] \ | ( )]. *)
Definition pattern_meta (c : char) : bool :=
  existsb (N.eqb c) (lit ".^$*+?{}[]\|()").

(** A text that stands for itself when it is put into a pattern. *)
Definition pattern_literal (s : str) : bool :=
  forallb (fun c => negb (pattern_meta c)) s.

(** [re.escape]: a backslash before each of the characters
    [( ) [ ] { } ? * + - | ^ $ \ . & ~ #], the space, and the tab, line
    feed, carriage return, vertical tab and form feed. *)
Definition escaped_char (c : char) : bool :=
  existsb (N.eqb c) (lit "()[]{}?*+-|^$\.&~# " ++ [9; 10; 13; 11; 12]%N).

Definition re_escape (s : str) : str :=
  flat_map (fun c => if escaped_char c then [92%N; c] else [c]) s.

(** The text of the pattern of a result without anchor,
    [<TAG>\s*ORIGINAL\s*</TAG>]: the original is escaped, the tag is put
    in as it is. *)
Definition scalar_source (tag original : str) : str :=
  lit "<" ++ tag ++ lit ">\s*" ++ re_escape original
  ++ lit "\s*</" ++ tag ++ lit ">".

(** What that text compiles to when the tag stands for itself. *)
Definition scalar_literal (tag original : str) : regex :=
  Seq (Str N.eqb (lit "<" ++ tag ++ lit ">"))
  (Seq (Star is_space)
  (Seq (escape original)
  (Seq (Star is_space)
       (Str N.eqb (lit "</" ++ tag ++ lit ">"))))).

(** A pattern handed to [re.sub]: one whose syntax tree is built here, or
    the text of one that the library is left to read. *)
Inductive pattern : Type :=
  | Compiled (r : regex)
  | Source (text : str).

(** The pattern of a result without anchor.  A tag with a character of
    [pattern_meta] is read by the library as pattern syntax: it can match
    other text than itself, or make the pattern ill-formed. *)
Definition scalar_pattern (tag original : str) : pattern :=
  if pattern_literal tag then Compiled (scalar_literal tag original)
  else Source (scalar_source tag original).

Definition wrap (tag inner : str) : str :=
  lit "<" ++ tag ++ lit ">" ++ inner ++ lit "</" ++ tag ++ lit ">".

(** [w] is a wrapping element [<TAG>], white space, [inner], white space,
    [</TAG>]: what the pattern of a literal tag is written to find. *)
Definition wrapped (tag inner w : str) : Prop :=
  exists w1 w2,
    forallb is_space w1 = true /\ forallb is_space w2 = true
    /\ w = (lit "<" ++ tag ++ lit ">") ++ w1 ++ inner ++ w2
           ++ (lit "</" ++ tag ++ lit ">").

Definition nonempty_context (c : option str) : option str :=
  match c with
  | Some (x :: a) => Some (x :: a)
  | _ => None
  end.

(** The body of the first loop: the [(pattern, replacement)] pairs one
    result contributes; an exception inside the [try] contributes none. *)
Definition replacement_of (t : translation) : list (pattern * str) :=
  match (if str_eqb (tr_tag t) (lit "value") then nonempty_context (tr_context t)
         else None) with
  | Some ctx =>
      match sub (value_pattern (tr_original t))
                (wrap (lit "value") (tr_translated t)) ctx with
      | Some new_content => [(Compiled (escape ctx), new_content)]
      | None => []
      end
  | None =>
      [(scalar_pattern (tr_tag t) (tr_original t),
        wrap (tr_tag t) (tr_translated t))]
  end.

Section WithLibrary.

(** [re.sub] with the flag [DOTALL] on the text of a pattern, a replacement
    and a subject, for the patterns that are not compiled here: the new
    string, or [None] when the call raises. *)
Variable re_sub : str -> str -> str -> option str.

Definition sub_pattern (p : pattern) (repl s : str) : option str :=
  match p with
  | Compiled r => sub r repl s
  | Source text => re_sub text repl s
  end.

(** The second loop; it is outside the [try], so an ill-formed pattern or
    template leaves the function ([None]). *)
Fixpoint apply_all (rs : list (pattern * str)) (content : str) : option str :=
  match rs with
  | [] => Some content
  | (p, r) :: rest =>
      match sub_pattern p r content with
      | Some content' => apply_all rest content'
      | None => None
      end
  end.

(** [replace_translated_content], from the decoded content to the content
    that is written out. *)
Definition replace_translated_content (content : str)
  (translations : list translation) : option str :=
  apply_all (flat_map replacement_of translations) content.

End WithLibrary.

End Replacement.

(** ** Translation cache and client *)

Module Client.
Import Re.

Definition MAX_RETRIES : nat := 3.
(** Seconds; the source writes [4.0]. *)
Definition REQUEST_DELAY : N := 4.
Definition TIMEOUT_SECONDS : N := 55.

(** The fixed instructions that precede the text in the prompt. *)
Definition PROMPT_PREFIX : str :=
  [20320; 26159; 19968; 20010; 19987; 19994; 30340; 25216; 26415; 25991;
   26723; 32763; 35793; 24341; 25806; 65292; 35831; 20005; 26684; 36981;
   24490; 20197; 19979; 35268; 21017; 65306; 10; 23558; 25152; 26377; 35821;
   35328; 37117; 27721; 21270; 20026; 20013; 25991; 10; 36935; 21040; 31867;
   20284; 23618; 32423; 32467; 26500; 21517; 31216; 65288; 22914; 39; 39033;
   30446; 45; 36164; 28304; 45; 30707; 22836; 39; 65289; 65292; 20081; 30721;
   65292; 31526; 21495; 26102; 19981; 35201; 36827; 34892; 32763; 35793;
   65292; 21407; 25991; 36755; 20986; 10; 19981; 35201; 28155; 21152; 20219;
   20309; 35828; 26126; 31526; 21495; 10; 24453; 32763; 35793; 20869; 23481;
   65306; 10].

(** What [requests.post] is called with. *)
Record request : Type := Request {
  req_url : str;
  req_api_key : str;
  req_model : str;
  req_prompt : str;
  req_timeout : N
}.

(** What one attempt sees of the service: an exception before the body is
    usable (transport error, timeout, status that [raise_for_status]
    rejects, a body that is not the expected JSON), a body without
    [output.text], or the text. *)
Inductive response : Type :=
| Failed
| NoText
| Text (raw : str).

Inductive event : Type :=
| Post (r : request)
| Sleep (seconds : N)
| SaveCache (c : gmap str str).

(** The mutable state one translator works on: its cache, the global call
    counter, and the number of requests the service has received. *)
Record state : Type := State {
  cache : gmap str str;
  api_call_counter : N;
  sent : nat
}.

Inductive outcome : Type :=
| Returned (translated : str)
| Raised.

(** The labels and tag names that [clean_translation] removes. *)
Definition label_display : str := [26174; 31034; 21517; 31216].
Definition label_description : str := [25551; 36848].
Definition label_tooltip : str := [24037; 20855; 25552; 31034].
Definition label_value : str := [20540].
Definition label_data : str := [25968; 25454].

Definition labels3 : regex :=
  Alt (Str N.eqb label_display)
  (Alt (Str N.eqb label_description) (Str N.eqb label_tooltip)).

Definition labels5 : regex :=
  Alt (Str N.eqb label_display)
  (Alt (Str N.eqb label_description)
  (Alt (Str N.eqb label_tooltip)
  (Alt (Str N.eqb label_value) (Str N.eqb label_data)))).

Definition colon (c : char) : bool := (c =? 65306) || (c =? ch ":").

Section WithWorld.
(** The class [\w] of a Unicode pattern, which Python reads from its
    Unicode tables. *)
Variable uni_word : char -> bool.

(** The service: the response to the [n]-th request it receives. *)
Variable net : nat -> request -> response.

(** The five patterns of [clean_translation], in order; none of their
    literal characters is cased, so IGNORECASE changes nothing. *)
Definition clean_patterns : list regex :=
  [ Seq Bol (Seq (Cap 1 labels3) (Seq (Opt (Chr colon)) (Star is_space)));
    Seq (Str N.eqb (lit "<")) (Seq (Opt (Str N.eqb (lit "/")))
      (Seq (Star is_space) (Seq (Cap 1 labels5)
      (Seq (Star is_space) (Str N.eqb (lit ">"))))));
    Seq (Str N.eqb (lit "<")) (Seq (Cap 1 (Plus uni_word))
      (Seq (Star is_space) (Str N.eqb [21517; 31216; 61])));
    Str N.eqb [60; 47; 44050; 62];
    Str N.eqb [60; 47; 25968; 25454; 62] ].

(** [re.sub(pattern, EMPTY, text)]: the empty template always compiles. *)
Definition erase (r : regex) (s : str) : str :=
  match sub r [] s with
  | Some s' => s'
  | None => s
  end.

Definition clean_translation (t : str) : str :=
  strip (fold_left (fun acc r => erase r acc) clean_patterns t).

Definition cache_key (tag text : str) : str := tag ++ lit ":" ++ text.

Definition make_request (url api_key text : str) : request :=
  Request url api_key (lit "qwen-max-latest") (PROMPT_PREFIX ++ text)
          TIMEOUT_SECONDS.

(** What the body of the [try] yields for one response: the translation,
    or [None] when an exception is raised (also for an empty result). *)
Definition attempt_text (r : response) : option str :=
  match r with
  | Text raw =>
      match clean_translation (strip raw) with
      | [] => None
      | x :: t => Some (x :: t)
      end
  | NoText => None
  | Failed => None
  end.

(** The [for attempt in range(n)] loop and the [raise] after it. *)
Fixpoint attempts (n : nat) (rq : request) (key : str) (st : state)
  : outcome * state * list event :=
  match n with
  | O => (Raised, st, [])
  | S n' =>
      let st1 := State (cache st) (api_call_counter st) (S (sent st)) in
      match attempt_text (net (sent st) rq) with
      | Some translated =>
          let c := <[key := translated]> (cache st) in
          (Returned translated,
           State c (api_call_counter st) (S (sent st)),
           [Post rq; SaveCache c])
      | None =>
          let '(o, st2, ev) := attempts n' rq key st1 in
          (o, st2, Post rq :: Sleep REQUEST_DELAY :: ev)
      end
  end.

(** [translate_text] of the translator with credentials [url], [api_key]. *)
Definition translate_text (url api_key : str) (tag text : str) (st : state)
  : outcome * state * list event :=
  let st0 := State (cache st) (api_call_counter st + 1) (sent st) in
  match cache st !! cache_key tag text with
  | Some v => (Returned v, st0, [])
  | None => attempts MAX_RETRIES (make_request url api_key text)
                     (cache_key tag text) st0
  end.

Import Extractor Replacement.

Definition degraded (f : fragment) : translation :=
  Translation (tag f) (text f) (text f) (context f).

(** The loop inside the [try] of [batch_translate]: [None] when a call
    raised. *)
Fixpoint translate_loop (url api_key : str) (batch : list fragment)
  (results : list translation) (st : state)
  : option (list translation) * state * list event :=
  match batch with
  | [] => (Some results, st, [])
  | f :: rest =>
      match translate_text url api_key (tag f) (text f) st with
      | (Returned translated, st1, ev1) =>
          let '(r, st2, ev2) :=
            translate_loop url api_key rest
              (results ++ [Translation (tag f) (text f) translated (context f)])
              st1 in
          (r, st2, ev1 ++ ev2)
      | (Raised, st1, ev1) => (None, st1, ev1)
      end
  end.

Definition batch_translate (url api_key : str) (batch : list fragment)
  (st : state) : list translation * state * list event :=
  match translate_loop url api_key batch [] st with
  | (Some results, st', ev) => (results, st', ev)
  | (None, st', ev) => (List.map degraded batch, st', ev)
  end.

(** [process_batch]: [batch_translate] already handles every exception of
    the loop, so the handler here is never reached. *)
Definition process_batch (url api_key : str) (batch : list fragment)
  (st : state) : list translation * state * list event :=
  batch_translate url api_key batch st.

(** A sequence of [translate_text] calls on one translator: the outcome
    and the events of each call. *)
Fixpoint run_calls (url api_key : str) (calls : list (str * str))
  (st : state) : list (outcome * list event) * state :=
  match calls with
  | [] => ([], st)
  | (tg, tx) :: rest =>
      let '(o, st1, ev) := translate_text url api_key tg tx st in
      let '(os, st2) := run_calls url api_key rest st1 in
      ((o, ev) :: os, st2)
  end.

(** The calls a shard makes, and the values of a list of outcomes when
    every call returned. *)
Definition calls_of (batch : list fragment) : list (str * str) :=
  List.map (fun f => (tag f, text f)) batch.

Definition with_translation (f : fragment) (t : str) : translation :=
  Translation (tag f) (text f) t (context f).

End WithWorld.

Fixpoint returned_values (outs : list (outcome * list event))
  : option (list str) :=
  match outs with
  | [] => Some []
  | (Returned v, _) :: rest => option_map (cons v) (returned_values rest)
  | (Raised, _) :: _ => None
  end.

(** The events of [n] failed attempts. *)
Fixpoint failed_attempts (n : nat) (rq : request) : list event :=
  match n with
  | O => []
  | S n' => Post rq :: Sleep REQUEST_DELAY :: failed_attempts n' rq
  end.

(** Every cached translation is a non-empty string. *)
Definition cache_nonempty (c : gmap str str) : Prop :=
  forall k, c !! k <> Some [].

Definition is_post (e : event) : bool :=
  match e with
  | Post _ => true
  | _ => false
  end.

Definition posts (ev : list event) : nat := length (List.filter is_post ev).

End Client.

(** ** Batch scheduler *)

Module Scheduler.

Section Slices.
Context {A : Type}.

(** [l[start::step]] for [start >= 0] and [step >= 1]: walk the list, take
    the element when [skip] reaches zero and then every [step]-th one. *)
Fixpoint slice (skip step : nat) (l : list A) : list A :=
  match l with
  | [] => []
  | x :: t =>
      match skip with
      | O => x :: slice (Nat.pred step) step t
      | S n => slice n step t
      end
  end.

(** [[matches[i::k] for i in range(k)]] *)
Definition batches (k : nat) (matches : list A) : list (list A) :=
  List.map (fun i => slice i k matches) (seq 0 k).
End Slices.

End Scheduler.

(** ** Concrete inputs used by the examples *)

Module Samples.
Import Extractor Replacement Client.

Definition no_word : char -> bool := fun _ => false.
Definition url0 : str := lit "https://service.example/api".
Definition key0 : str := lit "sk-0".
Definition st0 : state := State ∅ 0 0.

(** A state whose cache holds a value that is not stripped. *)
Definition st_cached : state :=
  State (<[lit "Tooltip:ab" := lit " ok"]> ∅) 0 0.

(** A service that never answers. *)
Definition net_down : nat -> request -> response := fun _ _ => Failed.

(** A service whose first answer is lost and which answers [ok] afterwards. *)
Definition net_fail_then_ok : nat -> request -> response :=
  fun n _ => match n with O => Failed | _ => Text (lit "ok") end.

(** A service whose first answer is blank and which answers [ok] afterwards. *)
Definition net_blank_then_ok : nat -> request -> response :=
  fun n _ => match n with O => Text (lit "   ") | _ => Text (lit "ok") end.

(** A service that answers with the four characters a, backslash, n, b. *)
Definition net_escape : nat -> request -> response :=
  fun _ _ => Text (lit "a\nb").

(** A service that answers the first request and is down afterwards. *)
Definition net_ok_then_down : nat -> request -> response :=
  fun n _ => match n with O => Text (lit "T1") | _ => Failed end.

(** A quoted attribute value. *)
Definition quoted (s : str) : str := [34] ++ s ++ [34].

(** [<data name=QUOTE name QUOTE><value>inner</value></data>] *)
Definition data_block (name inner : str) : str :=
  lit "<data name=" ++ quoted name ++ lit "><value>" ++ inner
  ++ lit "</value></data>".

Definition stone : str := data_block (lit "x") (lit "Stone").
Definition shitou : str := [30707; 22836].

(** The same block with the value element written in capitals. *)
Definition stone_caps : str :=
  lit "<data name=" ++ quoted (lit "x") ++ lit "><VALUE>Stone</VALUE></data>".

(** A block whose attribute list holds the text of another block, followed
    by that block. *)
Definition nested : str :=
  lit "<data name=" ++ quoted (lit "y") ++ lit " "
  ++ data_block (lit "x") (lit "ab") ++ data_block (lit "x") (lit "ab").

Definition two_tooltips : str :=
  lit "<Tooltip>ab</Tooltip><Tooltip>ab</Tooltip>".

(** Two blocks with different names around the same text. *)
Definition two_stones : str :=
  lit "<root>" ++ data_block (lit "x") (lit "Stone") ++ lit " "
  ++ data_block (lit "y") (lit "Stone") ++ lit "</root>".

(** Two ideographs of the block CJK Unified Ideographs Extension A, which
    starts at U+3400. *)
Definition extension_a : str := [13312; 13313].

(** A library that raises on every pattern handed to it as text. *)
Definition re_sub_raises : str -> str -> str -> option str :=
  fun _ _ _ => None.

Definition frag_ab : fragment := Fragment (lit "Tooltip") (lit "ab") None.
Definition frag_cd : fragment := Fragment (lit "Tooltip") (lit "cd") None.

End Samples.

(** ** Configuration files *)

Module Config.
Import Extractor.

(** [load_mod_ids], on the lines of the file as [readlines] gives them;
    [None] is the [IndexError] of [lines[0]] on an empty file. *)
Definition load_mod_ids (lines : list str) : option (list str) :=
  match lines with
  | [] => None
  | _ :: rest =>
      Some (List.map strip (List.filter (fun line => truthy (strip line)) rest))
  end.

(** The parsed configuration object: a key that is absent is [None]. *)
Record config : Type := ConfigFile {
  cfg_api_keys : option (list str);
  cfg_api_url : option str
}.

Definition DEFAULT_KEY : str := [22312; 27492; 22788; 22635; 20837; 31192; 38053].
Definition DEFAULT_KEYS : list str := [DEFAULT_KEY; lit " "; lit " "].
Definition DEFAULT_URL : str := [22312; 27492; 22788; 22635; 20837; 85; 82; 76].

Fixpoint keys_eqb (a b : list str) : bool :=
  match a, b with
  | [], [] => true
  | x :: a', y :: b' => str_eqb x y && keys_eqb a' b'
  | _, _ => false
  end.

(** [load_api_config] after the file is read; [None] is [exit(1)]. *)
Definition load_api_config (cfg : config) : option (list str * str) :=
  let api_keys := match cfg_api_keys cfg with Some ks => ks | None => [] end in
  let api_url := strip (match cfg_api_url cfg with Some u => u | None => [] end) in
  if match api_keys with [] => true | _ :: _ => false end
     || forallb (fun k => negb (truthy (strip k))) api_keys then None
  else if negb (truthy api_url) then None
  else if keys_eqb api_keys DEFAULT_KEYS || str_eqb api_url DEFAULT_URL then None
  else Some (api_keys, api_url).

End Config.

(** ** Log and statistics *)

Module Logging.
Import Extractor.

(** [translation_stats] *)
Record stats : Type := Stats {
  total : N;
  success : N;
  failed : N
}.

(** The statistics and the entries appended to the log file. *)
Record log_state : Type := LogState {
  log_stats : stats;
  log_entries : list str
}.

Definition or_na (s : str) : str :=
  match s with
  | [] => lit "N/A"
  | _ :: _ => s
  end.

Definition newline : str := [10].

(** The text of one entry, with the time stamp as [strftime] formats it. *)
Definition log_entry (timestamp mod_id original translated file_path status : str)
  (error : option str) : str :=
  (lit "[" ++ timestamp ++ lit "] ModID:" ++ mod_id ++ lit " | Status:"
   ++ status ++ newline)
  ++ (lit "Original: " ++ or_na original ++ newline
      ++ lit "Translated: " ++ or_na translated ++ newline)
  ++ match error with
     | Some (x :: e) => lit "Error: " ++ (x :: e) ++ newline
     | _ => []
     end
  ++ (lit "File: " ++ file_path ++ newline ++ repeat (ch "=") 50 ++ newline).

Section WithClock.
(** The time stamp read for the entry that follows [n] entries. *)
Variable clock : nat -> str.

(** [log_translation]; the write to the log file is taken to succeed. *)
Definition log_translation (mod_id original translated file_path status : str)
  (error : option str) (lg : log_state) : log_state :=
  if is_chinese original then lg
  else
    let st := log_stats lg in
    let entry := log_entry (clock (length (log_entries lg))) mod_id original
                           translated file_path status error in
    LogState
      (if str_eqb status (lit "Success")
       then Stats (total st + 1) (success st + 1) (failed st)
       else Stats (total st + 1) (success st) (failed st + 1))
      (log_entries lg ++ [entry]).
End WithClock.

End Logging.

(** ** One file, from content to content *)

Module Pipeline.
Import Extractor Replacement Client Scheduler Logging.

(** A translator object: its credentials, its state when the file is
    taken up, and the responses its requests receive. *)
Record translator : Type := Translator {
  t_url : str;
  t_api_key : str;
  t_state : state;
  t_net : nat -> request -> response
}.

(** The exceptions that reach the handler of [process_file]. *)
Inductive failure : Type :=
| NoWorkers
| ReplacementRaised.

Definition source_of (t : translation) : fragment :=
  Fragment (tr_tag t) (tr_original t) (tr_context t).

Section WithWorld.
Variable uni_word : char -> bool.
Variable clock : nat -> str.
(** [str(e)] *)
Variable message : failure -> str.
(** [re.sub] on the patterns that are left to the library. *)
Variable re_sub : str -> str -> str -> option str.

(** What the future of one shard returns. *)
Definition run_shard (t : translator) (batch : list fragment) : list translation :=
  fst (fst (process_batch uni_word (t_net t) (t_url t) (t_api_key t) batch
              (t_state t))).

(** The futures submitted for the shards that are not empty, in the order
    of submission. *)
Definition futures (translators : list translator) (matches : list fragment)
  : list (list translation) :=
  flat_map (fun tb : translator * list fragment =>
              match snd tb with
              | [] => []
              | _ :: _ => [run_shard (fst tb) (snd tb)]
              end)
           (combine translators (batches (length translators) matches)).

(** The results in the order in which the futures complete: [order] lists
    the indices of the futures as [as_completed] yields them. *)
Definition completed (translators : list translator) (matches : list fragment)
  (order : list nat) : list (list translation) :=
  List.map (fun j => match futures translators matches !! j with
                     | Some r => r
                     | None => []
                     end) order.

Definition all_translations (translators : list translator)
  (matches : list fragment) (order : list nat) : list translation :=
  concat (completed translators matches order).

Definition log_results (mod_id file_path : str) (results : list translation)
  (lg : log_state) : log_state :=
  fold_left (fun l item =>
               log_translation clock mod_id (tr_original item)
                 (tr_translated item) file_path (lit "Success") None l)
            results lg.

(** [process_file] on the decoded content of the file: the content written
    to the output folder, if any, and the log.  The backup copy and the
    output path are left to the file system. *)
Definition process_file (mod_id file_path content : str)
  (translators : list translator) (order : list nat) (lg : log_state)
  : option str * log_state :=
  match parse_translatable_content content with
  | [] => (None, lg)
  | m :: ms =>
      match translators with
      | [] =>
          (None, log_translation clock mod_id [] [] file_path (lit "Failed")
                   (Some (message NoWorkers)) lg)
      | _ :: _ =>
          let lg1 := log_results mod_id file_path
                       (all_translations translators (m :: ms) order) lg in
          match replace_translated_content re_sub content
                  (all_translations translators (m :: ms) order) with
          | Some out => (Some out, lg1)
          | None =>
              (None, log_translation clock mod_id [] [] file_path (lit "Failed")
                       (Some (message ReplacementRaised)) lg1)
          end
      end
  end.
End WithWorld.

End Pipeline.

(** ** Observations on events, caches and statistics *)

Module Observers.
Import Re Replacement Client Logging.

(** The tag of a result stands for itself in a pattern, and neither the
    translation nor the anchor holds a backslash. *)
Definition plain_result (t : translation) : bool :=
  pattern_literal (tr_tag t) && no_backslash (tr_translated t)
  && match tr_context t with
     | Some a => no_backslash a
     | None => true
     end.

(** What the engine searches for on behalf of a result is not in the
    content: the anchor of a value result, the opening tag of any other. *)
Definition target_absent (content : str) (t : translation) : bool :=
  match (if str_eqb (tr_tag t) (lit "value")
         then nonempty_context (tr_context t) else None) with
  | Some ctx => negb (contains ctx content)
  | None => negb (contains (lit "<" ++ tr_tag t ++ lit ">") content)
  end.

Definition is_sleep (e : event) : bool :=
  match e with
  | Sleep _ => true
  | _ => false
  end.

Definition sleeps (ev : list event) : nat := length (List.filter is_sleep ev).

(** The caches written to the cache file, in order. *)
Fixpoint saves (ev : list event) : list (gmap str str) :=
  match ev with
  | [] => []
  | SaveCache c :: r => c :: saves r
  | _ :: r => saves r
  end.

(** Every cached translation is non-empty and stripped. *)
Definition cache_clean (c : gmap str str) : Prop :=
  forall k v, c !! k = Some v -> v <> [] /\ strip v = v.

(** What follows a label in the answer of the service: one colon is taken
    if it is there. *)
Definition after_colon (rest : str) : str :=
  match rest with
  | c :: r => if colon c then r else rest
  | [] => []
  end.

(** The counters add up. *)
Definition balanced (s : stats) : Prop := total s = (success s + failed s)%N.

End Observers.

(** ** Concrete inputs for one file *)

Module FileSamples.
Import Extractor Replacement Client Logging Pipeline Samples.

Definition clock0 : nat -> str := fun _ => lit "2025-01-01 00:00:00".
Definition message0 : failure -> str := fun _ => lit "error".
Definition lg0 : log_state := LogState (Stats 0 0 0) [].

(** A translator whose service answers once, and one whose service is
    down. *)
Definition t_ok : translator := Translator url0 key0 st0 net_ok_then_down.
Definition t_down : translator := Translator url0 (lit "sk-1") st0 net_down.

End FileSamples.

(** * Properties *)

(** ** The engine against the declarative reading of patterns *)

Module ReFacts.
Import Re.
Local Open Scope nat_scope.

Lemma prefix_by_sound e l : forall s t,
  prefix_by e l s = Some t -> exists w, s = w ++ t /\ same_by e l w.
Proof.
  induction l as [|a l IH]; intros s t; simpl.
  - intros [= <-]. exists []. split; [reflexivity | constructor].
  - destruct s as [|x s]; [discriminate|].
    destruct (e a x) eqn:E; [|discriminate].
    intros H. apply IH in H as (w & -> & Hw).
    exists (x :: w). split; [reflexivity | constructor; assumption].
Qed.

Lemma prefix_by_complete e l : forall w t,
  same_by e l w -> prefix_by e l (w ++ t) = Some t.
Proof.
  induction l as [|a l IH]; intros w t Hw; inversion Hw; subst; simpl.
  - reflexivity.
  - match goal with H : e a _ = true |- _ => rewrite H end. apply IH. assumption.
Qed.

Lemma same_by_length e l w : same_by e l w -> length w = length l.
Proof. intros H. symmetry. eapply Forall2_length. exact H. Qed.

Section Engine.
Context {R : Type}.
Variable total : nat.
Implicit Types (k : str -> option R) (s w t : str).

Lemma star_greedy_sound p k : forall s res,
  star_greedy p k s = Some res ->
  exists w t, s = w ++ t /\ forallb p w = true /\ k t = Some res.
Proof.
  induction s as [|x s IH]; intros res; simpl.
  - intros H. exists [], []. auto.
  - destruct (p x) eqn:Px.
    + destruct (star_greedy p k s) as [r|] eqn:E.
      * intros [= <-]. destruct (IH r eq_refl) as (w & t & -> & Hw & Hk).
        exists (x :: w), t. simpl. rewrite Px. auto.
      * intros H. exists [], (x :: s). auto.
    + intros H. exists [], (x :: s). auto.
Qed.

Lemma star_greedy_complete p k : forall w t,
  forallb p w = true -> star_greedy p k (w ++ t) = None -> k t = None.
Proof.
  induction w as [|x w IH]; intros t Hw; simpl.
  - destruct t as [|y t]; simpl; [auto|].
    destruct (p y); [|auto]. destruct (star_greedy p k t); [discriminate|auto].
  - simpl in Hw. apply andb_true_iff in Hw as [Px Hw]. rewrite Px.
    destruct (star_greedy p k (w ++ t)) eqn:E; [discriminate|].
    intros _. apply IH; assumption.
Qed.

Lemma star_lazy_sound p k : forall s res,
  star_lazy p k s = Some res ->
  exists w t, s = w ++ t /\ forallb p w = true /\ k t = Some res.
Proof.
  induction s as [|x s IH]; intros res; simpl.
  - destruct (k []) eqn:E; [|discriminate]. intros [= <-]. exists [], []. auto.
  - destruct (k (x :: s)) eqn:E.
    + intros [= <-]. exists [], (x :: s). auto.
    + destruct (p x) eqn:Px; [|discriminate].
      intros H. destruct (IH _ H) as (w & t & -> & Hw & Hk).
      exists (x :: w), t. simpl. rewrite Px. auto.
Qed.

Lemma star_lazy_complete p k : forall w t,
  forallb p w = true -> star_lazy p k (w ++ t) = None -> k t = None.
Proof.
  induction w as [|x w IH]; intros t Hw; simpl.
  - destruct t as [|y t]; simpl.
    + destruct (k []); [discriminate|auto].
    + destruct (k (y :: t)); [discriminate|auto].
  - simpl in Hw. apply andb_true_iff in Hw as [Px Hw].
    destruct (k (x :: w ++ t)); [discriminate|]. rewrite Px.
    apply IH. assumption.
Qed.

Lemma firstn_consumed w t : firstn (length (w ++ t) - length t) (w ++ t) = w.
Proof.
  rewrite length_app, Nat.add_sub. rewrite firstn_app, Nat.sub_diag.
  rewrite firstn_all. simpl. apply app_nil_r.
Qed.

(** Soundness: a successful run consumed a string the pattern denotes. *)
Lemma exec_sound r : forall (k : str -> caps -> option R) s c res,
  exec total r k s c = Some res ->
  exists w t c', s = w ++ t /\ den r c w c' /\ k t c' = Some res.
Proof.
  induction r as [|p|e l|a IHa b IHb|a IHa b IHb|p|p|g a IHa|e g|];
    intros k s c res; simpl.
  - intros H. exists [], s, c. auto.
  - destruct s as [|x s]; [discriminate|].
    destruct (p x) eqn:Px; [|discriminate].
    intros H. exists [x], s, c. split; [reflexivity|]. split; [|assumption].
    split; [|reflexivity]. exists x. auto.
  - destruct (prefix_by e l s) as [t|] eqn:E; [|discriminate].
    intros H. apply prefix_by_sound in E as (w & -> & Hw).
    exists w, t, c. auto.
  - intros H. apply IHa in H as (w1 & t1 & c1 & -> & Ha & H).
    apply IHb in H as (w2 & t2 & c2 & -> & Hb & H).
    exists (w1 ++ w2), t2, c2. rewrite <- app_assoc.
    split; [reflexivity|]. split; [|assumption].
    exists w1, w2, c1. auto.
  - destruct (exec total a k s c) as [r|] eqn:E.
    + intros [= <-]. apply IHa in E as (w & t & c' & -> & Ha & H).
      exists w, t, c'. auto.
    + intros H. apply IHb in H as (w & t & c' & -> & Hb & H).
      exists w, t, c'. auto.
  - intros H. apply star_greedy_sound in H as (w & t & -> & Hw & H).
    exists w, t, c. auto.
  - intros H. apply star_lazy_sound in H as (w & t & -> & Hw & H).
    exists w, t, c. auto.
  - intros H. apply IHa in H as (w & t & c' & -> & Ha & H).
    rewrite firstn_consumed in H.
    exists w, t, (cap_set g w c'). split; [reflexivity|].
    split; [|assumption]. exists c'. auto.
  - destruct (cap_get g c) as [v|] eqn:Eg; [|discriminate].
    destruct (prefix_by e v s) as [t|] eqn:E; [|discriminate].
    intros H. apply prefix_by_sound in E as (w & -> & Hw).
    exists w, t, c. split; [reflexivity|]. split; [|assumption].
    split; [|reflexivity]. exists v. auto.
  - destruct (Nat.eqb (length s) total); [|discriminate].
    intros H. exists [], s, c. auto.
Qed.

(** Completeness: when the run fails, no string the pattern denotes at the
    front of the subject lets the continuation succeed. *)
Lemma exec_complete r : forall (k : str -> caps -> option R) w t c c',
  bol_free r = true ->
  den r c w c' ->
  exec total r k (w ++ t) c = None -> k t c' = None.
Proof.
  induction r as [|p|e l|a IHa b IHb|a IHa b IHb|p|p|g a IHa|e g|];
    intros k w t c c' Hb; simpl.
  - intros [-> ->]. auto.
  - intros [(x & -> & Px) ->]. simpl. rewrite Px. auto.
  - intros [Hw ->]. rewrite (prefix_by_complete _ _ _ _ Hw). auto.
  - simpl in Hb. apply andb_true_iff in Hb as [Ha Hb'].
    intros (w1 & w2 & c1 & -> & D1 & D2) H. rewrite <- app_assoc in H.
    eapply IHb; [assumption | exact D2 |].
    eapply IHa; [assumption | exact D1 | exact H].
  - simpl in Hb. apply andb_true_iff in Hb as [Ha Hb'].
    destruct (exec total a k (w ++ t) c) eqn:E; [intros _; discriminate|].
    intros [D|D] H.
    + eapply IHa; eauto.
    + eapply IHb; eauto.
  - intros [Hw ->] H. eapply (star_greedy_complete p (fun u => k u c)); eauto.
  - intros [Hw ->] H. eapply (star_lazy_complete p (fun u => k u c)); eauto.
  - simpl in Hb. intros (c1 & D & ->) H.
    apply (IHa _ w t c c1 Hb D) in H. cbv beta in H.
    rewrite firstn_consumed in H. exact H.
  - intros [(v & Hv & Hw) ->]. rewrite Hv.
    rewrite (prefix_by_complete _ _ _ _ Hw). auto.
  - discriminate.
Qed.
End Engine.

Lemma match_at_sound r total s rest c :
  match_at r total s = Some (rest, c) ->
  exists w, s = w ++ rest /\ den r [] w c.
Proof.
  unfold match_at. intros H.
  apply exec_sound in H as (w & t & c' & -> & D & [= <- <-]).
  exists w. auto.
Qed.

Lemma match_at_complete r total w rest c :
  bol_free r = true -> den r [] w c -> match_at r total (w ++ rest) <> None.
Proof.
  unfold match_at. intros Hb D H.
  apply (exec_complete total r _ w rest [] c Hb D) in H. discriminate.
Qed.

(** *** The scans *)

Section Scans.
Variables (r : regex) (total : nat) (items : list titem).

Lemma sub_scan_skip u : forall rest,
  sub_scan r total items (length u) (u ++ rest)
  = sub_scan r total items 0 rest.
Proof. induction u as [|x u IH]; intros rest; simpl; auto. Qed.

Lemma sub_scan_match w rest c :
  w <> [] ->
  match_at r total (w ++ rest) = Some (rest, c) ->
  sub_scan r total items 0 (w ++ rest)
  = expand items w c ++ sub_scan r total items 0 rest.
Proof.
  intros Hw Hm. destruct w as [|x w]; [congruence|]. simpl in *.
  rewrite Hm.
  replace (S (length (w ++ rest)) - length rest) with (S (length w))
    by (rewrite length_app; lia).
  simpl. rewrite firstn_app, Nat.sub_diag, firstn_all. simpl.
  rewrite app_nil_r, sub_scan_skip. reflexivity.
Qed.

Lemma sub_scan_miss x t :
  match_at r total (x :: t) = None ->
  sub_scan r total items 0 (x :: t) = x :: sub_scan r total items 0 t.
Proof. intros H. simpl. rewrite H. reflexivity. Qed.

(** Nothing matches anywhere: the subject is copied. *)
Lemma sub_scan_nothing : forall s,
  (forall i, i < length s -> match_at r total (drop i s) = None) ->
  sub_scan r total items 0 s = s.
Proof.
  induction s as [|x t IH]; intros H; [reflexivity|].
  rewrite sub_scan_miss by (apply (H 0); simpl; lia). f_equal.
  apply IH. intros i Hi. apply (H (S i)). simpl. lia.
Qed.

(** One match, at the end of [pre], and none before or after it. *)
Lemma sub_scan_single w post c : forall pre,
  w <> [] ->
  (forall i, i < length pre ->
             match_at r total (drop i (pre ++ w ++ post)) = None) ->
  match_at r total (w ++ post) = Some (post, c) ->
  (forall i, i < length post -> match_at r total (drop i post) = None) ->
  sub_scan r total items 0 (pre ++ w ++ post)
  = pre ++ expand items w c ++ post.
Proof.
  induction pre as [|x pre IH]; intros Hw Hpre Hm Hpost.
  - rewrite !app_nil_l. rewrite (sub_scan_match w post c) by assumption.
    rewrite sub_scan_nothing by assumption. reflexivity.
  - rewrite <- !app_comm_cons. rewrite sub_scan_miss.
    + f_equal. apply IH; auto.
      intros i Hi. apply (Hpre (S i)). simpl. lia.
    + apply (Hpre 0). simpl. lia.
Qed.

Section Rewrites.
Variables (occ : str -> Prop) (rep : str).

Hypothesis match_sound : forall s rest c,
  match_at r total s = Some (rest, c) ->
  exists w, s = w ++ rest /\ occ w /\ w <> [] /\ expand items w c = rep.

Hypothesis match_complete : forall w rest,
  occ w -> match_at r total (w ++ rest) <> None.

Lemma rewrites_cons x t out :
  match_at r total (x :: t) = None ->
  rewrites occ rep t out -> rewrites occ rep (x :: t) (x :: out).
Proof.
  intros Hm Hrw.
  assert (Hfront : forall w rest, x :: t = w ++ rest -> ~ occ w).
  { intros w rest E Ho. apply (match_complete w rest Ho).
    rewrite <- E. exact Hm. }
  inversion Hrw as [s Hnone|pre w post out' Ho Hleft Hrest]; subst.
  - apply rw_none. intros pre w post E.
    destruct pre as [|y pre]; simpl in E.
    + eapply Hfront. exact E.
    + injection E as -> E. eapply Hnone. exact E.
  - apply (rw_step occ rep (x :: pre) w post out'); auto.
    intros pre' w' post' E Ho'.
    destruct pre' as [|y pre']; simpl in E.
    + exfalso. eapply Hfront; [exact E | exact Ho'].
    + injection E as -> E. simpl. apply le_n_S. eapply Hleft; eauto.
Qed.

Lemma sub_scan_rewrites_bounded n : forall s,
  length s <= n -> rewrites occ rep s (sub_scan r total items 0 s).
Proof.
  induction n as [|n IH]; intros s Hlen.
  - destruct s; [|simpl in Hlen; lia]. simpl. apply rw_none.
    intros pre w post E Ho.
    destruct pre; [|discriminate]. destruct w; [|discriminate].
    destruct post; [|discriminate].
    destruct (match_at r total ([] ++ [])) as [[rest c]|] eqn:Em.
    + apply match_sound in Em as (w & E' & _ & Hw & _).
      destruct w; [congruence | discriminate].
    + eapply (match_complete [] []); eauto.
  - destruct s as [|x t]; [apply (IH []); simpl; lia|].
    destruct (match_at r total (x :: t)) as [[rest c]|] eqn:Em.
    + destruct (match_sound _ _ _ Em) as (w & E & Ho & Hw & Hx).
      rewrite E in Em |- *. rewrite (sub_scan_match w rest c) by assumption.
      rewrite Hx.
      apply (rw_step occ rep [] w rest); auto.
      * intros. simpl. lia.
      * apply IH. apply (f_equal (@length _)) in E.
        rewrite length_app in E. simpl in E, Hlen.
        destruct w; [congruence|]. simpl in E. lia.
    + rewrite sub_scan_miss by assumption.
      apply rewrites_cons; [assumption|].
      apply IH. simpl in Hlen. lia.
Qed.

Lemma sub_scan_rewrites s :
  rewrites occ rep s (sub_scan r total items 0 s).
Proof. apply (sub_scan_rewrites_bounded (length s)). lia. Qed.
End Rewrites.

(** Every match reported by the scan is a match at some position. *)
Lemma scan_sound : forall s skip w c,
  In (w, c) (scan r total skip s) ->
  exists pre post, s = pre ++ w ++ post
                   /\ match_at r total (w ++ post) = Some (post, c).
Proof.
  induction s as [|x t IH]; intros skip w c; simpl; [tauto|].
  destruct skip as [|n].
  - destruct (match_at r total (x :: t)) as [[rest c0]|] eqn:Em.
    + intros [[= <- <-]|Hin].
      * destruct (match_at_sound _ _ _ _ _ Em) as (w0 & E & _).
        exists [], rest. simpl.
        assert (Hw : firstn (length (x :: t) - length rest) (x :: t) = w0).
        { rewrite E. apply firstn_consumed. }
        simpl in Hw. rewrite Hw. rewrite <- E. auto.
      * apply IH in Hin as (pre & post & -> & Hm).
        exists (x :: pre), post. auto.
    + intros Hin. apply IH in Hin as (pre & post & -> & Hm).
      exists (x :: pre), post. auto.
  - intros Hin. apply IH in Hin as (pre & post & -> & Hm).
    exists (x :: pre), post. auto.
Qed.
End Scans.

(** *** Templates without a backslash *)

Lemma parse_template_plain ng : forall t,
  no_backslash t = true -> parse_template ng t = Some (List.map TChr t).
Proof.
  unfold parse_template.
  induction t as [|x t IH]; simpl; [reflexivity|].
  intros H. apply andb_true_iff in H as [Hx Ht].
  rewrite Hx, (IH Ht). reflexivity.
Qed.

Lemma expand_plain t w c : expand (List.map TChr t) w c = t.
Proof. induction t as [|x t IH]; simpl; [|rewrite IH]; reflexivity. Qed.

Lemma sub_plain r rep s :
  no_backslash rep = true ->
  sub r rep s = Some (sub_scan r (length s) (List.map TChr rep) 0 s).
Proof. intros H. unfold sub. rewrite parse_template_plain by assumption. reflexivity. Qed.

(** *** Literals *)

Lemma same_by_eqb l : forall w, same_by N.eqb l w <-> w = l.
Proof.
  induction l as [|a l IH]; intros w; split; intros H.
  - inversion H. reflexivity.
  - subst. constructor.
  - inversion H as [|? y ? w' Hy Hw]; subst. apply N.eqb_eq in Hy as ->.
    f_equal. apply IH. assumption.
  - subst. constructor; [apply N.eqb_refl | apply IH; reflexivity].
Qed.

Lemma prefix_by_eqb l : forall s, prefix_by N.eqb l s = strip_prefix l s.
Proof.
  induction l as [|a l IH]; intros s; destruct s as [|x s]; simpl; auto.
  rewrite IH. reflexivity.
Qed.

Lemma strip_prefix_Some l : forall s t,
  strip_prefix l s = Some t <-> s = l ++ t.
Proof.
  intros s t. rewrite <- prefix_by_eqb. split.
  - intros H. apply prefix_by_sound in H as (w & -> & Hw).
    apply same_by_eqb in Hw as ->. reflexivity.
  - intros ->. apply prefix_by_complete. apply same_by_eqb. reflexivity.
Qed.

(** [occurrences] lists exactly the positions where the literal starts. *)
Lemma occurrences_from_spec p : forall s j i,
  In i (occurrences_from j p s)
  <-> exists n, i = j + n /\ n <= length s
                /\ strip_prefix p (drop n s) <> None.
Proof.
  induction s as [|x s IH]; intros j i; simpl.
  - rewrite app_nil_r. destruct (strip_prefix p []) eqn:E; simpl; split.
    + intros [<-|[]]. exists 0. rewrite Nat.add_0_r. simpl.
      rewrite E. repeat split; [lia | discriminate].
    + intros (n & -> & Hn & _). assert (n = 0) as -> by lia. left. lia.
    + tauto.
    + intros (n & -> & Hn & H). assert (n = 0) as -> by lia. simpl in H.
      congruence.
  - rewrite in_app_iff, IH. split.
    + intros [H|(n & -> & Hn & H)].
      * destruct (strip_prefix p (x :: s)) eqn:E; [|destruct H].
        destruct H as [<-|[]]. exists 0. rewrite Nat.add_0_r. simpl.
        rewrite E. repeat split; [lia | discriminate].
      * exists (S n). simpl. repeat split; [lia | lia | assumption].
    + intros (n & -> & Hn & H). destruct n as [|n].
      * left. simpl in H. destruct (strip_prefix p (x :: s)); [|congruence].
        left. lia.
      * right. exists n. simpl in H. repeat split; [lia | lia | assumption].
Qed.

Lemma occurrences_single p s n i :
  occurrences p s = [n] -> i <= length s -> i <> n ->
  strip_prefix p (drop i s) = None.
Proof.
  intros Hocc Hle Hi.
  destruct (strip_prefix p (drop i s)) as [t|] eqn:E; [|reflexivity].
  exfalso.
  assert (Hin : In i (occurrences p s)).
  { unfold occurrences. apply occurrences_from_spec.
    exists i. rewrite E. repeat split; [assumption | discriminate]. }
  rewrite Hocc in Hin. destruct Hin as [<-|[]]. congruence.
Qed.

End ReFacts.

(** ** Scheduler: round-robin partition *)

Module SchedulerFacts.
Import Scheduler.
Local Open Scope nat_scope.

Section Slices.
Context {A : Type}.
Implicit Types (l t : list A) (x : A).

Lemma slice_lookup l : forall skip step n,
  1 <= step -> slice skip step l !! n = l !! (skip + n * step).
Proof.
  induction l as [|x t IH]; intros skip step n Hstep; simpl.
  - reflexivity.
  - destruct skip as [|k]; simpl.
    + destruct n as [|n]; simpl; [reflexivity|].
      rewrite IH by assumption.
      destruct step as [|st]; [lia|]. simpl. reflexivity.
    + rewrite IH by assumption. reflexivity.
Qed.

Lemma slice_sublist l : forall skip step, sublist (slice skip step l) l.
Proof.
  induction l as [|x t IH]; intros skip step; simpl.
  - constructor.
  - destruct skip; [apply sublist_skip | apply sublist_cons]; apply IH.
Qed.

Lemma batches_length k l : length (batches k l) = k.
Proof. unfold batches. rewrite length_map, length_seq. reflexivity. Qed.

Lemma batches_lookup k l i :
  i < k -> batches k l !! i = Some (slice i k l).
Proof.
  intros Hi. unfold batches.
  rewrite list_lookup_fmap, lookup_seq_lt by assumption. reflexivity.
Qed.

(** Putting one more element in front rotates the shards: the new element
    heads shard 0, whose tail is the old last shard. *)
Lemma batches_cons k x t :
  batches (S k) (x :: t)
  = (x :: slice k (S k) t) :: List.map (fun i => slice i (S k) t) (seq 0 k).
Proof.
  unfold batches. simpl. f_equal.
  rewrite <- seq_shift, List.map_map. reflexivity.
Qed.

Lemma batches_snoc k t :
  batches (S k) t
  = List.map (fun i => slice i (S k) t) (seq 0 k) ++ [slice k (S k) t].
Proof.
  unfold batches. rewrite seq_S, List.map_app. reflexivity.
Qed.

Lemma batches_permutation k l :
  1 <= k -> Permutation (concat (batches k l)) l.
Proof.
  intros Hk. destruct k as [|k]; [lia|]. clear Hk.
  induction l as [|x t IH].
  - unfold batches. induction (seq 0 (S k)); simpl; auto.
  - rewrite batches_cons. simpl. constructor.
    rewrite batches_snoc, concat_app in IH. simpl in IH.
    rewrite app_nil_r in IH.
    etransitivity; [apply Permutation_app_comm | exact IH].
Qed.
End Slices.

(** C6. For every fragment list and every client count [k >= 1],
    [batches] has [k] shards; the fragment at index [j] is the element
    [j / k] of shard [j mod k]; shard [i] holds exactly the fragments at
    indices [i], [i + k], [i + 2k], ... in that order, so it is a sublist
    of the list; and the shards together are a permutation of the list
    (each fragment once, none lost). *)
Theorem round_robin_partition {A : Type} (k : nat) (fragments : list A) :
  1 <= k ->
  length (batches k fragments) = k
  /\ (forall j x, fragments !! j = Some x ->
        exists shard, batches k fragments !! (j mod k) = Some shard
                      /\ shard !! (j / k) = Some x)
  /\ (forall i shard, batches k fragments !! i = Some shard ->
        (forall n, shard !! n = fragments !! (i + n * k))
        /\ sublist shard fragments)
  /\ Permutation (concat (batches k fragments)) fragments.
Proof.
  intros Hk. split; [apply batches_length|]. split; [|split].
  - intros j x Hj. exists (slice (j mod k) k fragments). split.
    + apply batches_lookup. apply Nat.mod_upper_bound. lia.
    + rewrite slice_lookup by assumption.
      replace (j mod k + j / k * k) with j; [assumption|].
      rewrite (Nat.div_mod_eq j k) at 1. lia.
  - intros i shard Hi.
    assert (Hlt : i < k).
    { apply lookup_lt_Some in Hi. rewrite batches_length in Hi. exact Hi. }
    rewrite batches_lookup in Hi by assumption. injection Hi as <-.
    split; [intros n; apply slice_lookup; assumption | apply slice_sublist].
  - apply batches_permutation. assumption.
Qed.

Lemma round_robin_partition_witness :
  Permutation (concat (batches 3 [10; 11; 12; 13; 14])) [10; 11; 12; 13; 14]
  /\ batches 3 [10; 11; 12; 13; 14] = [[10; 13]; [11; 14]; [12]].
Proof.
  split.
  - apply (round_robin_partition 3 [10; 11; 12; 13; 14]). lia.
  - reflexivity.
Defined.

End SchedulerFacts.

(** ** Client: cache, retries, degradation *)

Module ClientFacts.
Import Extractor Replacement Client.
Local Open Scope nat_scope.

Section WithWorld.
Variable uni_word : char -> bool.
Variable net : nat -> request -> response.
Variables url api_key : str.

Local Abbreviation attempt_text := (Client.attempt_text uni_word).
Local Abbreviation attempts := (Client.attempts uni_word net).
Local Abbreviation translate_text := (Client.translate_text uni_word net url api_key).
Local Abbreviation translate_loop := (Client.translate_loop uni_word net url api_key).
Local Abbreviation batch_translate := (Client.batch_translate uni_word net url api_key).
Local Abbreviation run_calls := (Client.run_calls uni_word net url api_key).

Lemma attempt_text_nonempty r v : attempt_text r = Some v -> v <> [].
Proof.
  destruct r as [| |raw]; simpl; try discriminate.
  destruct (clean_translation uni_word (strip raw)); [discriminate|].
  intros [= <-]. discriminate.
Qed.

Lemma attempts_all_fail rq key n : forall st,
  (forall i, i < n -> attempt_text (net (sent st + i) rq) = None) ->
  attempts n rq key st
  = (Raised, State (cache st) (api_call_counter st) (sent st + n),
     failed_attempts n rq).
Proof.
  induction n as [|n IH]; intros st Hfail; simpl.
  - rewrite Nat.add_0_r. destruct st; reflexivity.
  - assert (H0 := Hfail 0 (Nat.lt_0_succ _)). rewrite Nat.add_0_r in H0.
    rewrite H0, IH; simpl.
    + replace (sent st + S n) with (S (sent st + n)) by lia. reflexivity.
    + intros i Hi. rewrite <- (Hfail (S i)) by lia. simpl.
      rewrite Nat.add_succ_r. reflexivity.
Qed.

Lemma attempts_first_good rq key i v : forall n st,
  i < n ->
  (forall j, j < i -> attempt_text (net (sent st + j) rq) = None) ->
  attempt_text (net (sent st + i) rq) = Some v ->
  attempts n rq key st
  = (Returned v,
     State (<[key := v]> (cache st)) (api_call_counter st) (sent st + i + 1),
     failed_attempts i rq ++ [Post rq; SaveCache (<[key := v]> (cache st))]).
Proof.
  induction i as [|i IH]; intros n st Hlt Hfail Hgood;
    (destruct n as [|n]; [lia|]); simpl.
  - rewrite Nat.add_0_r in Hgood. rewrite Hgood.
    replace (sent st + 0 + 1) with (S (sent st)) by lia. reflexivity.
  - assert (H0 := Hfail 0 (Nat.lt_0_succ _)). rewrite Nat.add_0_r in H0.
    rewrite H0.
    rewrite (IH n (State (cache st) (api_call_counter st) (S (sent st))));
      simpl.
    + replace (sent st + S i + 1) with (S (sent st + i + 1)) by lia.
      reflexivity.
    + lia.
    + intros j Hj. rewrite <- (Hfail (S j)) by lia. simpl.
      rewrite Nat.add_succ_r. reflexivity.
    + rewrite <- Hgood. simpl. rewrite Nat.add_succ_r. reflexivity.
Qed.

Lemma attempts_posts rq key n : forall st o st' ev,
  attempts n rq key st = (o, st', ev) -> posts ev <= n.
Proof.
  induction n as [|n IH]; intros st o st' ev; simpl.
  - intros [= <- <- <-]. reflexivity.
  - destruct (attempt_text _) as [v|].
    + intros [= <- <- <-]. unfold posts. simpl. lia.
    + destruct (attempts n rq key _) as [[o1 st1] ev1] eqn:E.
      intros [= <- <- <-]. apply IH in E. unfold posts in *. simpl. lia.
Qed.

Lemma attempts_returned rq key n : forall st v st' ev,
  attempts n rq key st = (Returned v, st', ev) ->
  v <> [] /\ cache st' = <[key := v]> (cache st).
Proof.
  induction n as [|n IH]; intros st v st' ev; simpl.
  - discriminate.
  - destruct (attempt_text _) as [w|] eqn:Ew.
    + intros [= <- <- <-]. split; [eapply attempt_text_nonempty; eauto|].
      reflexivity.
    + destruct (attempts n rq key _) as [[o1 st1] ev1] eqn:E.
      intros [= -> <- <-]. apply IH in E. exact E.
Qed.

Lemma attempts_raised rq key n : forall st st' ev,
  attempts n rq key st = (Raised, st', ev) -> cache st' = cache st.
Proof.
  induction n as [|n IH]; intros st st' ev; simpl.
  - intros [= <- <-]. reflexivity.
  - destruct (attempt_text _) as [w|]; [discriminate|].
    destruct (attempts n rq key _) as [[o1 st1] ev1] eqn:E.
    intros [= -> <- <-]. apply IH in E. exact E.
Qed.

(** A cache hit: the cached value, no event, the cache untouched. *)
Lemma translate_hit tag text st v :
  cache st !! cache_key tag text = Some v ->
  translate_text tag text st
  = (Returned v, State (cache st) (api_call_counter st + 1)%N (sent st), []).
Proof. intros H. unfold Client.translate_text. rewrite H. reflexivity. Qed.

(** No call overwrites or removes an entry of the cache. *)
Lemma translate_keeps_entries tag text st o st' ev k w :
  translate_text tag text st = (o, st', ev) ->
  cache st !! k = Some w -> cache st' !! k = Some w.
Proof.
  unfold Client.translate_text.
  destruct (cache st !! cache_key tag text) as [v|] eqn:Ek.
  - intros [= <- <- <-]. auto.
  - intros Hat Hk. destruct o as [v|].
    + apply attempts_returned in Hat as [_ ->]. simpl.
      rewrite lookup_insert_ne; [assumption|].
      intros E. rewrite E in Ek. congruence.
    + apply attempts_raised in Hat. rewrite Hat. assumption.
Qed.

Lemma translate_returned_cached tag text st v st' ev :
  translate_text tag text st = (Returned v, st', ev) ->
  cache st' !! cache_key tag text = Some v.
Proof.
  unfold Client.translate_text.
  destruct (cache st !! cache_key tag text) as [w|] eqn:Ek.
  - intros [= <- <- <-]. assumption.
  - intros Hat. apply attempts_returned in Hat as [_ ->]. simpl.
    apply lookup_insert_eq.
Qed.

Lemma run_calls_keeps_entries calls : forall st outs st' k w,
  run_calls calls st = (outs, st') ->
  cache st !! k = Some w -> cache st' !! k = Some w.
Proof.
  induction calls as [|[tg tx] rest IH]; intros st outs st' k w; simpl.
  - intros [= <- <-]. auto.
  - destruct (translate_text tg tx st) as [[o st1] ev] eqn:E1.
    destruct (run_calls rest st1) as [os st2] eqn:E2.
    intros [= <- <-] Hk. eapply IH; [exact E2|].
    eapply translate_keeps_entries; eauto.
Qed.

Lemma run_calls_hits tag text v calls : forall st outs st' i,
  run_calls calls st = (outs, st') ->
  cache st !! cache_key tag text = Some v ->
  calls !! i = Some (tag, text) ->
  outs !! i = Some (Returned v, []).
Proof.
  induction calls as [|[tg tx] rest IH]; intros st outs st' i; simpl.
  - intros _ _ H. rewrite lookup_nil in H. discriminate.
  - destruct (translate_text tg tx st) as [[o st1] ev] eqn:E1.
    destruct (run_calls rest st1) as [os st2] eqn:E2.
    intros [= <- <-] Hk Hi. destruct i as [|i]; simpl in *.
    + injection Hi as -> ->. rewrite (translate_hit _ _ _ _ Hk) in E1.
      injection E1 as <- <- <-. reflexivity.
    + eapply IH; eauto. eapply translate_keeps_entries; eauto.
Qed.

Lemma loop_all_returned batch : forall acc st outs st' ts,
  run_calls (calls_of batch) st = (outs, st') ->
  returned_values outs = Some ts ->
  translate_loop batch acc st
  = (Some (acc ++ zip_with with_translation batch ts), st',
     concat (List.map snd outs)).
Proof.
  induction batch as [|f rest IH]; intros acc st outs st' ts; simpl.
  - intros [= <- <-] [= <-]. simpl. rewrite app_nil_r. reflexivity.
  - destruct (translate_text (tag f) (text f) st) as [[o st1] ev1] eqn:E1.
    destruct (run_calls (calls_of rest) st1) as [os st2] eqn:E2.
    intros [= <- <-]. simpl. destruct o as [v|]; [|discriminate].
    destruct (returned_values os) as [vs|] eqn:Ev; [|discriminate].
    intros [= <-]. rewrite (IH _ _ _ _ _ E2 Ev). simpl.
    rewrite <- app_assoc. reflexivity.
Qed.

Lemma loop_first_raise pre f post : forall acc st outs st1 ts st2 ev2,
  run_calls (calls_of pre) st = (outs, st1) ->
  returned_values outs = Some ts ->
  translate_text (tag f) (text f) st1 = (Raised, st2, ev2) ->
  translate_loop (pre ++ f :: post) acc st
  = (None, st2, concat (List.map snd outs) ++ ev2).
Proof.
  induction pre as [|g rest IH]; intros acc st outs st1 ts st2 ev2; simpl.
  - intros [= <- <-] _ E. rewrite E. reflexivity.
  - destruct (translate_text (tag g) (text g) st) as [[o sa] eva] eqn:E1.
    destruct (run_calls (calls_of rest) sa) as [os sb] eqn:E2.
    intros [= <- <-]. simpl. destruct o as [v|]; [|discriminate].
    destruct (returned_values os) as [vs|] eqn:Ev; [|discriminate].
    intros _ E. rewrite (IH _ _ _ _ _ _ _ E2 Ev E). simpl.
    rewrite <- app_assoc. reflexivity.
Qed.

(** C7. A call never issues more than [MAX_RETRIES] requests; and when
    the key is not cached and each of the next [MAX_RETRIES] responses
    fails, the call issues exactly [MAX_RETRIES] requests, sleeps
    [REQUEST_DELAY] after each of them, leaves the cache as it was and
    raises. *)
Theorem retry_exhaustion tag text st :
  let rq := make_request url api_key text in
  (forall o st' ev,
      translate_text tag text st = (o, st', ev) -> posts ev <= MAX_RETRIES)
  /\ (cache st !! cache_key tag text = None ->
      (forall i, i < MAX_RETRIES ->
                 attempt_text (net (sent st + i) rq) = None) ->
      translate_text tag text st
      = (Raised,
         State (cache st) (api_call_counter st + 1)%N (sent st + MAX_RETRIES),
         [Post rq; Sleep REQUEST_DELAY; Post rq; Sleep REQUEST_DELAY;
          Post rq; Sleep REQUEST_DELAY])).
Proof.
  intros rq. split.
  - intros o st' ev. unfold Client.translate_text.
    destruct (cache st !! cache_key tag text).
    + intros [= <- <- <-]. unfold posts. simpl. lia.
    + apply attempts_posts.
  - intros Hmiss Hfail. unfold Client.translate_text. rewrite Hmiss.
    rewrite attempts_all_fail; [reflexivity|]. exact Hfail.
Qed.

(** C8. A response without text, or whose text is empty once stripped and
    cleaned, counts as a failed attempt; failed attempts are retried, so
    the first usable response within the [MAX_RETRIES] attempts is what
    the call returns and caches; and a returned value is never the empty
    string (on a miss, and on a hit when no cached value is empty, which
    every call preserves). *)
Theorem empty_result_is_retried tag text st :
  let rq := make_request url api_key text in
  let key := cache_key tag text in
  attempt_text NoText = None
  /\ (forall raw, clean_translation uni_word (strip raw) = [] ->
                  attempt_text (Text raw) = None)
  /\ (forall i v,
        cache st !! key = None ->
        i < MAX_RETRIES ->
        (forall j, j < i -> attempt_text (net (sent st + j) rq) = None) ->
        attempt_text (net (sent st + i) rq) = Some v ->
        translate_text tag text st
        = (Returned v,
           State (<[key := v]> (cache st)) (api_call_counter st + 1)%N
                 (sent st + i + 1),
           failed_attempts i rq
           ++ [Post rq; SaveCache (<[key := v]> (cache st))]))
  /\ (forall v st' ev,
        translate_text tag text st = (Returned v, st', ev) ->
        (cache st !! key = None -> v <> [])
        /\ (cache_nonempty (cache st) ->
            v <> [] /\ cache_nonempty (cache st'))).
Proof.
  intros rq key. split; [reflexivity|]. split; [|split].
  - intros raw H. simpl. rewrite H. reflexivity.
  - intros i v Hmiss Hi Hfail Hgood. unfold Client.translate_text.
    fold key. rewrite Hmiss.
    rewrite (attempts_first_good rq key i v); auto.
  - intros v st' ev. unfold Client.translate_text. fold key.
    destruct (cache st !! key) as [w|] eqn:Ek.
    + intros [= <- <- <-]. split; [discriminate|]. intros Hne. simpl.
      split; [|exact Hne]. intros ->. exact (Hne key Ek).
    + intros Hat. apply attempts_returned in Hat as [Hv Hc].
      split; [auto|]. intros Hne. split; [exact Hv|].
      rewrite Hc. simpl. intros k. destruct (decide (key = k)) as [<-|Hk].
      * rewrite lookup_insert_eq. intros [= ->]. auto.
      * rewrite lookup_insert_ne by assumption. apply Hne.
Qed.

(** C5, as amended. When the key is cached, the call returns the cached
    value at once, with no request and the cache untouched; and once a
    call for [(tag, text)] has returned [v], every call for that pair in
    any later sequence of calls on the same cache returns [v] without a
    request. *)
Theorem cache_short_circuit tag text :
  (forall st v,
      cache st !! cache_key tag text = Some v ->
      translate_text tag text st
      = (Returned v,
         State (cache st) (api_call_counter st + 1)%N (sent st), []))
  /\ (forall st v st1 ev,
        translate_text tag text st = (Returned v, st1, ev) ->
        forall calls outs st2,
          run_calls calls st1 = (outs, st2) ->
          cache st2 !! cache_key tag text = Some v
          /\ forall i, calls !! i = Some (tag, text) ->
                       outs !! i = Some (Returned v, [])).
Proof.
  split.
  - intros st v H. apply translate_hit. exact H.
  - intros st v st1 ev Hcall calls outs st2 Hrun.
    apply translate_returned_cached in Hcall. split.
    + eapply run_calls_keeps_entries; eauto.
    + intros i Hi. eapply run_calls_hits; eauto.
Qed.

(** C1, as amended. When the calls for the fragments before [f] all
    return and the call for [f] raises, the shard's result is the source
    text for every fragment of the shard, also for those already
    translated; when every call returns, the result pairs each fragment
    with what its call returned. *)
Theorem shard_degrades_as_a_whole batch st :
  (forall pre f post outs st1 ts st2 ev2,
      batch = pre ++ f :: post ->
      run_calls (calls_of pre) st = (outs, st1) ->
      returned_values outs = Some ts ->
      translate_text (tag f) (text f) st1 = (Raised, st2, ev2) ->
      batch_translate batch st
      = (List.map degraded batch, st2, concat (List.map snd outs) ++ ev2))
  /\ (forall outs st' ts,
        run_calls (calls_of batch) st = (outs, st') ->
        returned_values outs = Some ts ->
        batch_translate batch st
        = (zip_with with_translation batch ts, st',
           concat (List.map snd outs))).
Proof.
  split.
  - intros pre f post outs st1 ts st2 ev2 -> Hrun Hts Hf.
    unfold Client.batch_translate.
    rewrite (loop_first_raise _ _ _ _ _ _ _ _ _ _ Hrun Hts Hf). reflexivity.
  - intros outs st' ts Hrun Hts. unfold Client.batch_translate.
    rewrite (loop_all_returned _ _ _ _ _ _ Hrun Hts). reflexivity.
Qed.
End WithWorld.

Import Samples.

Lemma retry_exhaustion_witness :
  translate_text no_word net_down url0 key0 (lit "Tooltip") (lit "ab") st0
  = (Raised, State ∅ 1 3,
     let rq := make_request url0 key0 (lit "ab") in
     [Post rq; Sleep 4; Post rq; Sleep 4; Post rq; Sleep 4]).
Proof.
  destruct (retry_exhaustion no_word net_down url0 key0
              (lit "Tooltip") (lit "ab") st0) as [_ H].
  apply H.
  - reflexivity.
  - intros i _. reflexivity.
Defined.

Lemma empty_result_is_retried_witness :
  let rq := make_request url0 key0 (lit "ab") in
  let c := <[lit "Tooltip:ab" := lit "ok"]> (∅ : gmap str str) in
  translate_text no_word net_blank_then_ok url0 key0 (lit "Tooltip") (lit "ab") st0
  = (Returned (lit "ok"), State c 1 2,
     [Post rq; Sleep 4; Post rq; SaveCache c]).
Proof.
  intros rq c.
  destruct (empty_result_is_retried no_word net_blank_then_ok url0 key0
              (lit "Tooltip") (lit "ab") st0) as (_ & _ & H & _).
  apply (H 1 (lit "ok")).
  - reflexivity.
  - unfold MAX_RETRIES. lia.
  - intros j Hj. assert (j = 0) as -> by lia. reflexivity.
  - reflexivity.
Defined.

(** C5, counterexample. One call for a pair that is not cached issues two
    requests for it when the first attempt fails. *)
Lemma one_call_two_requests :
  exists st' ev,
    translate_text no_word net_fail_then_ok url0 key0 (lit "Tooltip") (lit "ab") st0
    = (Returned (lit "ok"), st', ev)
    /\ posts ev = 2 /\ sent st' = 2.
Proof. eexists _, _. split; [reflexivity|]. split; reflexivity. Qed.

Lemma cache_short_circuit_witness :
  let c := <[lit "Tooltip:ab" := lit "ok"]> (∅ : gmap str str) in
  translate_text no_word net_down url0 key0 (lit "Tooltip") (lit "ab")
                 (State c 0 0)
  = (Returned (lit "ok"), State c 1 0, []).
Proof.
  intros c.
  destruct (cache_short_circuit no_word net_down url0 key0
              (lit "Tooltip") (lit "ab")) as [H _].
  apply (H (State c 0 0) (lit "ok")). reflexivity.
Defined.

(** C1, counterexample. The first fragment of the shard is translated, the
    second exhausts its retries: the shard returns the source text for
    both. *)
Lemma one_failure_degrades_translated_fragment :
  fst (fst (translate_text no_word net_ok_then_down url0 key0
              (tag frag_ab) (text frag_ab) st0))
  = Returned (lit "T1")
  /\ fst (fst (batch_translate no_word net_ok_then_down url0 key0
                 [frag_ab; frag_cd] st0))
     = [Translation (lit "Tooltip") (lit "ab") (lit "ab") None;
        Translation (lit "Tooltip") (lit "cd") (lit "cd") None].
Proof. split; reflexivity. Qed.

Lemma shard_degrades_as_a_whole_witness :
  fst (fst (batch_translate no_word net_ok_then_down url0 key0
              [frag_ab; frag_cd] st0))
  = List.map degraded [frag_ab; frag_cd].
Proof.
  destruct (run_calls no_word net_ok_then_down url0 key0 (calls_of [frag_ab]) st0)
    as [outs st1] eqn:Hrun.
  destruct (translate_text no_word net_ok_then_down url0 key0
              (tag frag_cd) (text frag_cd) st1) as [[o st2] ev2] eqn:Hcall.
  rewrite (proj1 (shard_degrades_as_a_whole no_word net_ok_then_down url0 key0
                    [frag_ab; frag_cd] st0)
             [frag_ab] frag_cd [] outs st1 [lit "T1"] st2 ev2).
  - reflexivity.
  - reflexivity.
  - exact Hrun.
  - vm_compute in Hrun. injection Hrun as <- <-. reflexivity.
  - vm_compute in Hrun. injection Hrun as <- <-.
    vm_compute in Hcall. injection Hcall as <- <- <-. reflexivity.
Defined.

End ClientFacts.

(** ** Fragment extractor *)

Module ExtractorFacts.
Import Re ReFacts Extractor.
Local Open Scope nat_scope.

(** Take a denotation of a concrete pattern apart into its pieces. *)
Ltac den_inv H :=
  unfold Plus in H; cbn [den] in H; decompose [ex and] H; clear H; subst.

Lemma block_shape_inv w c :
  den block_shape [] w c ->
  exists hd e V tl,
    w = hd ++ e ++ tl /\ w <> []
    /\ (exists o a b cl,
          e = o ++ a ++ V ++ b ++ cl
          /\ same_by ci_lit (lit "<value>") o
          /\ same_by ci_lit (lit "</value>") cl
          /\ forallb is_space a = true /\ forallb is_space b = true)
    /\ group g_full_tag c = w /\ group g_value c = V.
Proof.
  unfold block_shape. intros D. den_inv D.
  match goal with
  | Ho : same_by ci_lit (lit "<value>") ?o,
    Hc : same_by ci_lit (lit "</value>") ?cl
    |- context [?o ++ ?a ++ ?V ++ ?b ++ ?cl ++ ?tl] =>
      eexists _, (o ++ a ++ V ++ b ++ cl), V, tl;
      split; [|split; [|split; [exists o, a, b, cl; auto 6|split; reflexivity]]]
  end.
  - repeat rewrite app_assoc. reflexivity.
  - match goal with H : same_by ci_lit (lit "<") _ |- _ => inversion H end.
    discriminate.
Qed.

Lemma scalar_shape_inv w c :
  den scalar_shape [] w c ->
  exists name T,
    scalar_name name
    /\ group g_full_tag c = [] /\ group g_simple_tag c = name
    /\ group g_simple_text c = T.
Proof.
  unfold scalar_shape. intros D. cbn [den] in D.
  decompose [ex and or] D; clear D; subst;
    eexists _, _; (split; [|repeat split; reflexivity]);
    unfold scalar_name; auto.
Qed.

Lemma scalar_name_nonempty t : scalar_name t -> t <> [].
Proof. intros [H|[H|H]]; inversion H; discriminate. Qed.

Lemma scalar_name_not_value : ~ scalar_name (lit "value").
Proof.
  intros [H|[H|H]]; apply same_by_length in H; discriminate.
Qed.

Lemma lstrip_split s :
  exists l, s = l ++ lstrip s /\ forallb is_space l = true.
Proof.
  induction s as [|x s (l & E & Hl)]; simpl.
  - exists []. auto.
  - destruct (is_space x) eqn:Ex.
    + exists (x :: l). simpl. rewrite Ex, Hl, <- E. auto.
    + exists []. auto.
Qed.

Lemma forallb_rev {A} (p : A -> bool) l :
  forallb p l = true -> forallb p (rev l) = true.
Proof.
  rewrite !forallb_forall. intros H x Hx. apply H. apply in_rev. assumption.
Qed.

(** A string is its stripped part with white space on both sides. *)
Lemma strip_split s :
  exists l r, s = l ++ strip s ++ r
              /\ forallb is_space l = true /\ forallb is_space r = true.
Proof.
  destruct (lstrip_split s) as (l & E & Hl).
  destruct (lstrip_split (rev (lstrip s))) as (r & Er & Hr).
  exists l, (rev r). split; [|split; [assumption | apply forallb_rev; assumption]].
  unfold strip, rstrip. rewrite <- rev_app_distr, <- Er, rev_involutive.
  exact E.
Qed.

Lemma all_matches_inv content f :
  In f (all_matches content) ->
  exists pre w post c,
    content = pre ++ w ++ post
    /\ den pattern [] w c
    /\ In f (fragment_of_match (w, c)).
Proof.
  unfold all_matches, finditer. rewrite in_flat_map.
  intros ([w c] & Hin & Hf).
  apply scan_sound in Hin as (pre & post & -> & Hm).
  apply match_at_sound in Hm as (w' & E & D).
  apply app_inv_tail in E as <-.
  exists pre, w, post, c. auto.
Qed.

(** What the extractor makes of a match of either shape. *)
Lemma fragment_shape content f :
  In f (all_matches content) ->
  (tag f = lit "value"
   /\ exists a, context f = Some a /\ substring a content
                /\ exists e, substring e a /\ value_element_ci (text f) e)
  \/ (scalar_name (tag f) /\ context f = None).
Proof.
  intros Hin. apply all_matches_inv in Hin as (pre & w & post & c & -> & D & Hf).
  unfold fragment_of_match in Hf. cbn [snd] in Hf.
  destruct D as [D|D].
  - apply block_shape_inv in D as (hd & e & V & tl & Ew & Hw & He & G1 & G3).
    rewrite G1, G3 in Hf. destruct w as [|y w]; [congruence|]. cbn [truthy] in Hf.
    destruct Hf as [<-|[]]. left. cbn [tag context text].
    split; [reflexivity|]. exists (y :: w).
    split; [reflexivity|]. split; [exists pre, post; reflexivity|].
    destruct He as (o & a & b & cl & -> & Ho & Hc & Ha & Hb).
    destruct (strip_split V) as (l & r & EV & Hl & Hr).
    exists (o ++ (a ++ l) ++ strip V ++ (r ++ b) ++ cl). split.
    + exists hd, tl. rewrite Ew. f_equal. f_equal.
      rewrite EV at 1. rewrite <- !app_assoc. reflexivity.
    + exists o, (a ++ l), (r ++ b), cl.
      rewrite !forallb_app, Ha, Hb, Hl, Hr. auto.
  - apply scalar_shape_inv in D as (name & T & Hn & G1 & G4 & G5).
    rewrite G1, G4, G5 in Hf. cbn [truthy] in Hf.
    pose proof (scalar_name_nonempty _ Hn) as Hne.
    destruct name as [|y name]; [congruence|]. cbn [truthy] in Hf.
    destruct Hf as [<-|[]]. right. auto.
Qed.

(** *** The filter *)

Lemma contains_spec p : forall s, contains p s = true <-> substring p s.
Proof.
  induction s as [|x s IH]; simpl.
  - destruct (strip_prefix p []) as [t|] eqn:E; split; intros H; auto.
    + apply strip_prefix_Some in E. exists [], t. exact E.
    + discriminate.
    + destruct H as (pre & post & H). destruct pre; [|discriminate].
      assert (E' : strip_prefix p [] = Some post)
        by (apply strip_prefix_Some; exact H).
      congruence.
  - destruct (strip_prefix p (x :: s)) as [t|] eqn:E; split; intros H; auto.
    + apply strip_prefix_Some in E. exists [], t. exact E.
    + apply IH in H as (pre & post & ->). exists (x :: pre), post. reflexivity.
    + destruct H as (pre & post & H). destruct pre as [|y pre].
      * assert (E' : strip_prefix p (x :: s) = Some post)
          by (apply strip_prefix_Some; exact H).
        congruence.
      * injection H as -> ->. apply IH. exists pre, post. reflexivity.
Qed.

Lemma scan_class_empty p total : forall s,
  scan (Chr p) total 0 s = [] <-> forallb (fun c => negb (p c)) s = true.
Proof.
  induction s as [|x s IH]; simpl; [tauto|].
  unfold match_at. cbn [exec]. destruct (p x); simpl.
  - split; discriminate.
  - exact IH.
Qed.

Lemma is_chinese_false t :
  is_chinese t = false <-> forallb (fun c => negb (chinese_char c)) t = true.
Proof.
  unfold is_chinese, search, finditer.
  rewrite <- (scan_class_empty chinese_char (length t) t).
  destruct (scan _ _ _ _); split; congruence.
Qed.

(** C9, as amended. A fragment is in the result of the extraction exactly
    when it is among the matches and its text holds none of the reserved
    keywords, holds no character of the range U+4E00 to U+9FFF (the one
    range [is_chinese] tests), and has length at least 2; in particular no
    returned fragment has an empty text, and a match that breaks one of the
    conditions is not returned. *)
Theorem extracted_fragments_pass_filter content f :
  (In f (parse_translatable_content content)
   <-> In f (all_matches content)
       /\ (forall kw, In kw SKIP_KEYWORDS -> ~ substring kw (text f))
       /\ Forall (fun c => ~ (19968 <= c <= 40959)%N) (text f)
       /\ 2 <= length (text f))
  /\ (In f (parse_translatable_content content) -> text f <> []).
Proof.
  assert (Hiff : negb (skipped (text f)) = true
                 <-> (forall kw, In kw SKIP_KEYWORDS -> ~ substring kw (text f))
                     /\ Forall (fun c => ~ (19968 <= c <= 40959)%N) (text f)
                     /\ 2 <= length (text f)).
  { unfold skipped. rewrite negb_true_iff, !orb_false_iff.
    rewrite is_chinese_false, Nat.ltb_ge.
    rewrite <- not_true_iff_false, existsb_exists.
    rewrite forallb_forall, List.Forall_forall.
    split.
    - intros [[Hk Hc] Hl]. split; [|split; [|exact Hl]].
      + intros kw Hkw Hs. apply Hk. exists kw. split; [exact Hkw|].
        apply contains_spec. exact Hs.
      + intros c Hin Hr. specialize (Hc c Hin).
        unfold chinese_char in Hc. apply negb_true_iff in Hc.
        apply andb_false_iff in Hc as [Hc|Hc];
          [apply N.leb_gt in Hc | apply N.leb_gt in Hc]; lia.
    - intros (Hk & Hc & Hl). split; [split|exact Hl].
      + intros (kw & Hkw & Hs). apply (Hk kw Hkw). apply contains_spec. exact Hs.
      + intros c Hin. specialize (Hc c Hin). unfold chinese_char.
        apply negb_true_iff, andb_false_iff.
        destruct (N.leb_spec 19968 c); [right|left; reflexivity].
        apply N.leb_gt. lia. }
  unfold parse_translatable_content. rewrite filter_In, Hiff.
  split; [reflexivity|].
  intros (_ & _ & _ & Hl) E. rewrite E in Hl. simpl in Hl. lia.
Qed.

Import Samples.

Lemma extracted_fragments_pass_filter_witness :
  parse_translatable_content (stone ++ lit "<Tooltip>x</Tooltip>")
  = [Fragment (lit "value") (lit "Stone") (Some stone)]
  /\ ~ substring (lit "Item") (lit "Stone").
Proof.
  split; [reflexivity|].
  destruct (extracted_fragments_pass_filter
              (stone ++ lit "<Tooltip>x</Tooltip>")
              (Fragment (lit "value") (lit "Stone") (Some stone)))
    as [[H _] _].
  apply H.
  - left. reflexivity.
  - right. left. reflexivity.
Defined.

(** C9, counterexample. A text of two ideographs of the block CJK Unified
    Ideographs Extension A (U+3400 and U+3401) is written in the Chinese
    script, lies outside the tested range, and is returned. *)
Lemma extension_a_text_is_returned :
  extension_a = [13312; 13313]%N
  /\ is_chinese extension_a = false
  /\ parse_translatable_content
       (lit "<Tooltip>" ++ extension_a ++ lit "</Tooltip>")
     = [Fragment (lit "Tooltip") extension_a None].
Proof. repeat split; vm_compute; reflexivity. Qed.

(** X20. A fragment the extraction returns is either a value fragment,
    whose anchor is a substring of the content and holds the source text
    inside a value element, white space allowed around the text and the two
    tags spelled [value] in any letter case; or a scalar fragment, whose
    tag is DisplayName, Description or Tooltip in any letter case and whose
    anchor is absent.  No scalar tag is the word [value]. *)
Theorem extracted_anchor_shape content f :
  In f (parse_translatable_content content) ->
  ((tag f = lit "value"
    /\ exists a, context f = Some a /\ substring a content
                 /\ exists e, substring e a /\ value_element_ci (text f) e)
   \/ (scalar_name (tag f) /\ context f = None))
  /\ ~ scalar_name (lit "value").
Proof.
  unfold parse_translatable_content. rewrite filter_In. intros [Hin _].
  split; [apply fragment_shape; assumption | apply scalar_name_not_value].
Qed.

Lemma extracted_anchor_shape_witness :
  (lit "value" = lit "value"
   /\ exists a, Some stone = Some a /\ substring a stone
                /\ exists e, substring e a
                             /\ value_element_ci (lit "Stone") e)
  \/ (scalar_name (lit "value") /\ Some stone = None).
Proof.
  apply (extracted_anchor_shape stone
           (Fragment (lit "value") (lit "Stone") (Some stone))).
  left. reflexivity.
Defined.

(** C10, at a failing input. A value element written in capitals is
    extracted as a value fragment with its block as anchor; the anchor does
    not hold the tag [<value>] that the replacement pattern looks for, and
    the replacement with that anchor leaves the content as it is.  The same
    block with the element in lower case is rewritten. *)
Theorem capital_value_element_not_located :
  parse_translatable_content stone_caps
  = [Fragment (lit "value") (lit "Stone") (Some stone_caps)]
  /\ contains (lit "<value>") stone_caps = false
  /\ (forall re_sub,
        Replacement.replace_translated_content re_sub stone_caps
          [Replacement.Translation (lit "value") (lit "Stone") shitou
             (Some stone_caps)]
        = Some stone_caps)
  /\ parse_translatable_content stone
     = [Fragment (lit "value") (lit "Stone") (Some stone)]
  /\ (forall re_sub,
        Replacement.replace_translated_content re_sub stone
          [Replacement.Translation (lit "value") (lit "Stone") shitou
             (Some stone)]
        = Some (data_block (lit "x") shitou)).
Proof. repeat split; intros; vm_compute; reflexivity. Qed.

End ExtractorFacts.

(** ** Replacement engine *)

Module ReplacementFacts.
Import Re ReFacts Extractor Replacement.
Local Open Scope nat_scope.

Lemma length_lstrip s : length (lstrip s) <= length s.
Proof.
  induction s as [|x s IH]; simpl; [lia|].
  destruct (is_space x); simpl; lia.
Qed.

Lemma length_strip s : length (strip s) <= length (lstrip s).
Proof.
  unfold strip, rstrip. rewrite length_rev.
  etransitivity; [apply length_lstrip|]. rewrite length_rev. lia.
Qed.

(** A stripped string does not start with white space. *)
Lemma strip_fixed_head x s : strip (x :: s) = x :: s -> is_space x = false.
Proof.
  intros H. destruct (is_space x) eqn:E; [|reflexivity]. exfalso.
  pose proof (length_strip (x :: s)) as H1. rewrite H in H1.
  simpl in H1. rewrite E in H1. pose proof (length_lstrip s). lia.
Qed.

Lemma star_greedy_all {R} p (k : str -> option R) res : forall w rest,
  forallb p w = true ->
  match rest with [] => True | y :: _ => p y = false end ->
  k rest = Some res ->
  star_greedy p k (w ++ rest) = Some res.
Proof.
  induction w as [|x w IH]; intros rest Hw Hrest Hk; simpl.
  - destruct rest as [|y rest]; simpl; [assumption|].
    rewrite Hrest. assumption.
  - simpl in Hw. apply andb_true_iff in Hw as [Px Hw]. rewrite Px.
    rewrite (IH rest Hw Hrest Hk). reflexivity.
Qed.

(** The value pattern at a value element whose inner text starts with a
    character that is not white space: the match is the element. *)
Lemma value_match_exact total w1 x v w2 t :
  forallb is_space w1 = true -> forallb is_space w2 = true ->
  is_space x = false ->
  match_at (value_pattern (x :: v)) total
    (lit "<value>" ++ w1 ++ (x :: v) ++ w2 ++ lit "</value>" ++ t)
  = Some (t, []).
Proof.
  intros H1 H2 Hx. unfold match_at, value_pattern, escape.
  cbn [exec]. rewrite (prefix_by_complete N.eqb (lit "<value>") (lit "<value>"))
    by (apply same_by_eqb; reflexivity).
  apply star_greedy_all; [assumption | simpl; assumption |].
  cbn [exec].
  rewrite (prefix_by_complete N.eqb (x :: v) (x :: v))
    by (apply same_by_eqb; reflexivity).
  apply star_greedy_all; [assumption | reflexivity |].
  rewrite (prefix_by_complete N.eqb (lit "</value>") (lit "</value>"))
    by (apply same_by_eqb; reflexivity).
  reflexivity.
Qed.

Lemma value_match_needs_tag total v s :
  strip_prefix (lit "<value>") s = None ->
  match_at (value_pattern v) total s = None.
Proof.
  intros H. unfold match_at, value_pattern. cbn [exec].
  rewrite prefix_by_eqb, H. reflexivity.
Qed.

Lemma escape_match total a s :
  match_at (escape a) total s
  = match strip_prefix a s with
    | Some t => Some (t, [])
    | None => None
    end.
Proof. unfold match_at, escape. cbn [exec]. rewrite prefix_by_eqb. reflexivity. Qed.

Lemma no_backslash_app a b :
  no_backslash (a ++ b) = no_backslash a && no_backslash b.
Proof. unfold no_backslash. apply forallb_app. Qed.

Lemma drop_past {A} (a b : list A) i : drop (length a + i) (a ++ b) = drop i b.
Proof. rewrite drop_app_add'; reflexivity. Qed.

(** [re.sub] of a pattern that needs the literal [p] at its start, on a
    subject where the one place a match can start is the end of [pre]. *)
Lemma sub_scan_at_single_occurrence r total items p pre w post c :
  (forall u, strip_prefix p u = None -> match_at r total u = None) ->
  occurrences p (pre ++ w ++ post) = [length pre] ->
  w <> [] ->
  match_at r total (w ++ post) = Some (post, c) ->
  sub_scan r total items 0 (pre ++ w ++ post) = pre ++ expand items w c ++ post.
Proof.
  intros Hneed Hocc Hw Hm. apply sub_scan_single; auto.
  - intros i Hi. apply Hneed. eapply occurrences_single; [exact Hocc | |lia].
    rewrite length_app. lia.
  - intros i Hi. apply Hneed.
    replace (drop i post) with (drop (length pre + length w + i) (pre ++ w ++ post)).
    + eapply occurrences_single; [exact Hocc | |].
      * rewrite !length_app. lia.
      * destruct w; [congruence|]. simpl. lia.
    + rewrite <- Nat.add_assoc, drop_past, drop_past. reflexivity.
Qed.

Lemma scalar_den tag orig w c :
  den (scalar_literal tag orig) [] w c <-> wrapped tag orig w /\ c = [].
Proof.
  unfold scalar_literal, escape, wrapped. cbn [den]. split.
  - intros (a & r1 & c1 & -> & [Ha ->] & b & r2 & c2 & -> & [Hb ->]
            & o & r3 & c3 & -> & [Ho ->] & d & e & c4 & -> & [Hd ->] & [He ->]).
    apply same_by_eqb in Ha as ->. apply same_by_eqb in Ho as ->.
    apply same_by_eqb in He as ->. split; [|reflexivity].
    exists b, d. auto.
  - intros [(w1 & w2 & H1 & H2 & ->) ->].
    eexists _, _, _. split; [reflexivity|].
    split; [split; [apply same_by_eqb|]; reflexivity|].
    eexists _, _, _. split; [reflexivity|]. split; [split; [exact H1|reflexivity]|].
    eexists _, _, _. split; [reflexivity|].
    split; [split; [apply same_by_eqb|]; reflexivity|].
    eexists _, _, _. split; [reflexivity|]. split; [split; [exact H2|reflexivity]|].
    split; [apply same_by_eqb|]; reflexivity.
Qed.

Lemma wrapped_nonempty tag orig w : wrapped tag orig w -> w <> [].
Proof. intros (w1 & w2 & _ & _ & ->). discriminate. Qed.

Lemma no_backslash_wrap tag T :
  no_backslash tag = true -> no_backslash T = true ->
  no_backslash (wrap tag T) = true.
Proof.
  intros Ht HT. unfold wrap. rewrite !no_backslash_app, Ht, HT. reflexivity.
Qed.

(** The backslash is one of the characters a literal tag is free of. *)
Lemma pattern_literal_no_backslash tag :
  pattern_literal tag = true -> no_backslash tag = true.
Proof.
  unfold pattern_literal, no_backslash. rewrite !forallb_forall.
  intros H c Hc. specialize (H c Hc).
  destruct (N.eqb_spec c (ch "\")) as [->|]; [discriminate H | reflexivity].
Qed.

(** The pattern of a literal tag is the one built here. *)
Lemma scalar_pattern_literal tag original :
  pattern_literal tag = true ->
  scalar_pattern tag original = Compiled (scalar_literal tag original).
Proof. unfold scalar_pattern. intros ->. reflexivity. Qed.

Lemma nonempty_context_Some a : a <> [] -> nonempty_context (Some a) = Some a.
Proof. destruct a; [congruence | reflexivity]. Qed.

(** [re.sub] of the value pattern on an anchor that holds one value
    element, around a stripped non-empty text. *)
Lemma sub_value_in_anchor h w1 v w2 t T :
  let a := h ++ (lit "<value>" ++ w1 ++ v ++ w2 ++ lit "</value>") ++ t in
  occurrences (lit "<value>") a = [length h] ->
  forallb is_space w1 = true -> forallb is_space w2 = true ->
  v <> [] -> strip v = v ->
  no_backslash T = true ->
  sub (value_pattern v) (wrap (lit "value") T) a
  = Some (h ++ (lit "<value>" ++ T ++ lit "</value>") ++ t).
Proof.
  intros a Hocc H1 H2 Hv Hs HT. destruct v as [|x v]; [congruence|].
  apply strip_fixed_head in Hs.
  rewrite sub_plain by (apply no_backslash_wrap; [reflexivity | assumption]).
  f_equal. unfold a.
  rewrite (sub_scan_at_single_occurrence _ _ _ (lit "<value>") h _ t []).
  - rewrite expand_plain. reflexivity.
  - intros u Hu. apply value_match_needs_tag. assumption.
  - exact Hocc.
  - discriminate.
  - rewrite <- !app_assoc. apply value_match_exact; assumption.
Qed.

Import Samples.

Section WithLibrary.
Variable re_sub : str -> str -> str -> option str.

Local Abbreviation replace_translated_content :=
  (Replacement.replace_translated_content re_sub).

(** C2, as amended. For a result without anchor whose tag holds no
    character with a meaning in a pattern and whose translation holds no
    backslash, the engine replaces every occurrence of the wrapping element
    around the source text, leftmost first and without overlap, by the
    element around the translation, and copies the rest of the content. *)
Theorem scalar_replaces_every_occurrence content tag original translated :
  pattern_literal tag = true ->
  no_backslash translated = true ->
  exists out,
    replace_translated_content content
      [Translation tag original translated None] = Some out
    /\ rewrites (wrapped tag original) (wrap tag translated) content out.
Proof.
  intros Htag HT.
  pose proof (no_backslash_wrap tag translated
                (pattern_literal_no_backslash tag Htag) HT) as Hrep.
  unfold Replacement.replace_translated_content, replacement_of.
  cbn [flat_map tr_tag tr_context tr_original tr_translated].
  replace (if str_eqb tag (lit "value") then nonempty_context None else None)
    with (@None str) by (destruct (str_eqb _ _); reflexivity).
  rewrite scalar_pattern_literal by assumption.
  rewrite app_nil_r. cbn [Replacement.apply_all sub_pattern].
  rewrite sub_plain by assumption.
  eexists. split; [reflexivity|].
  apply sub_scan_rewrites.
  - intros s rest c Hm. apply match_at_sound in Hm as (w & -> & D).
    apply scalar_den in D as [Ho ->]. exists w.
    split; [reflexivity|]. split; [assumption|].
    split; [eapply wrapped_nonempty; eauto | apply expand_plain].
  - intros w rest Ho. eapply match_at_complete; [reflexivity|].
    apply scalar_den. split; [exact Ho | reflexivity].
Qed.

(** C3, at failing inputs.  The replacement text is read as a template:
    a translation that holds backslash-n is written with a line feed (the
    client returns such a translation as it is, and the whole path from
    extraction to replacement writes the line feed); a translation that
    holds a bad escape is dropped; a backslash in the anchor is read as an
    escape too; and a value element written in capitals is extracted but
    never rewritten.  The scenario of the specification itself works. *)
Theorem roundtrip_breaks_on_escapes_and_case :
  replace_translated_content stone
    [Translation (lit "value") (lit "Stone") shitou (Some stone)]
  = Some (data_block (lit "x") shitou)
  /\ (let results :=
        fst (fst (Client.process_batch no_word net_escape url0 key0
                    (parse_translatable_content stone) st0)) in
      results = [Translation (lit "value") (lit "Stone") (lit "a\nb") (Some stone)]
      /\ replace_translated_content stone results
         = Some (data_block (lit "x") (lit "a" ++ [10%N] ++ lit "b")))
  /\ replace_translated_content stone
       [Translation (lit "value") (lit "Stone") (lit "a\nb") (Some stone)]
     = Some (data_block (lit "x") (lit "a" ++ [10%N] ++ lit "b"))
  /\ replace_translated_content stone
       [Translation (lit "value") (lit "Stone") (lit "a\db") (Some stone)]
     = Some stone
  /\ replace_translated_content (data_block (lit "a\b") (lit "Stone"))
       [Translation (lit "value") (lit "Stone") shitou
          (Some (data_block (lit "a\b") (lit "Stone")))]
     = Some (data_block (lit "a" ++ [8%N]) shitou)
  /\ parse_translatable_content stone_caps
     = [Fragment (lit "value") (lit "Stone") (Some stone_caps)]
  /\ replace_translated_content stone_caps
       [Translation (lit "value") (lit "Stone") shitou (Some stone_caps)]
     = Some stone_caps.
Proof. repeat split; vm_compute; reflexivity. Qed.

(** C4, as amended. A result for the anchor [a1], whose text occurs in the
    content at one place only and which holds one value element around the
    stripped, non-empty source text, rewrites the inner value of [a1] and
    nothing else: all that stands before and after [a1], another anchor
    with the same inner text included, stays as it is.  Backslashes, which
    the engine reads as template escapes, are kept out of the anchor and of
    the translation. *)
Theorem duplicate_text_safety pre post h1 w1 v w2 t1 translated :
  let a1 := h1 ++ (lit "<value>" ++ w1 ++ v ++ w2 ++ lit "</value>") ++ t1 in
  let content := pre ++ a1 ++ post in
  occurrences a1 content = [length pre] ->
  occurrences (lit "<value>") a1 = [length h1] ->
  forallb is_space w1 = true -> forallb is_space w2 = true ->
  v <> [] -> strip v = v ->
  no_backslash a1 = true -> no_backslash translated = true ->
  replace_translated_content content
    [Translation (lit "value") v translated (Some a1)]
  = Some (pre ++ (h1 ++ (lit "<value>" ++ translated ++ lit "</value>") ++ t1)
              ++ post).
Proof.
  intros a1 content Hocc Hval H1 H2 Hv Hs Hb HT.
  assert (Ha1 : a1 <> []).
  { unfold a1. destruct h1; discriminate. }
  unfold Replacement.replace_translated_content, replacement_of.
  cbn [flat_map tr_tag tr_context tr_original tr_translated].
  replace (str_eqb (lit "value") (lit "value")) with true by reflexivity.
  rewrite nonempty_context_Some by assumption.
  unfold a1 at 1. rewrite sub_value_in_anchor by assumption.
  rewrite app_nil_r. cbn [Replacement.apply_all sub_pattern].
  assert (Hnew : no_backslash
            (h1 ++ (lit "<value>" ++ translated ++ lit "</value>") ++ t1) = true).
  { unfold a1 in Hb. rewrite !no_backslash_app in Hb |- *.
    repeat (apply andb_true_iff in Hb as [? Hb] || apply andb_true_iff in Hb as [Hb ?]).
    repeat (apply andb_true_iff; split); auto. }
  rewrite sub_plain by assumption. f_equal. unfold content.
  rewrite (sub_scan_at_single_occurrence _ _ _ a1 pre a1 post []).
  - rewrite expand_plain. reflexivity.
  - intros u Hu. rewrite escape_match, Hu. reflexivity.
  - exact Hocc.
  - exact Ha1.
  - rewrite escape_match.
    replace (strip_prefix a1 (a1 ++ post)) with (Some post); [reflexivity|].
    symmetry. apply strip_prefix_Some. reflexivity.
Qed.

End WithLibrary.

Lemma scalar_replaces_every_occurrence_witness :
  exists out,
    replace_translated_content re_sub_raises two_tooltips
      [Translation (lit "Tooltip") (lit "ab") (lit "XY") None] = Some out
    /\ rewrites (wrapped (lit "Tooltip") (lit "ab"))
                (wrap (lit "Tooltip") (lit "XY")) two_tooltips out.
Proof.
  apply (scalar_replaces_every_occurrence re_sub_raises two_tooltips
           (lit "Tooltip") (lit "ab") (lit "XY")); reflexivity.
Defined.

(** C2, counterexample. With two wrapping elements around the same text,
    both are rewritten, not the first alone, however the library reads the
    patterns left to it. *)
Lemma scalar_second_occurrence_rewritten :
  (forall re_sub,
     replace_translated_content re_sub two_tooltips
       [Translation (lit "Tooltip") (lit "ab") (lit "XY") None]
     = Some (lit "<Tooltip>XY</Tooltip><Tooltip>XY</Tooltip>"))
  /\ (forall re_sub,
        replace_translated_content re_sub two_tooltips
          [Translation (lit "Tooltip") (lit "ab") (lit "XY") None]
        <> Some (lit "<Tooltip>XY</Tooltip><Tooltip>ab</Tooltip>")).
Proof. split; intros re_sub; [reflexivity | discriminate]. Qed.

(** The result is for the later of two anchors with the same inner text:
    the earlier one stands in what precedes the targeted anchor. *)
Lemma duplicate_text_safety_witness :
  replace_translated_content re_sub_raises two_stones
    [Translation (lit "value") (lit "Stone") shitou
       (Some (data_block (lit "y") (lit "Stone")))]
  = Some (lit "<root>" ++ data_block (lit "x") (lit "Stone") ++ lit " "
          ++ data_block (lit "y") shitou ++ lit "</root>").
Proof.
  apply (duplicate_text_safety re_sub_raises
           (lit "<root>" ++ data_block (lit "x") (lit "Stone") ++ lit " ")
           (lit "</root>")
           (lit "<data name=" ++ quoted (lit "y") ++ lit ">") [] (lit "Stone") []
           (lit "</data>") shitou);
    try reflexivity.
  discriminate.
Defined.

(** C4, counterexample. The text of the anchor named [x] also occurs inside
    the attribute list of the anchor named [y]; both anchors are extracted,
    and the result for the first rewrites the inner value of both. *)
Lemma anchor_text_inside_other_anchor :
  let a1 := data_block (lit "x") (lit "ab") in
  let a2 := lit "<data name=" ++ quoted (lit "y") ++ lit " " ++ a1 in
  nested = a2 ++ a1
  /\ parse_translatable_content nested
     = [Fragment (lit "value") (lit "ab") (Some a2);
        Fragment (lit "value") (lit "ab") (Some a1)]
  /\ (forall re_sub,
        replace_translated_content re_sub nested
          [Translation (lit "value") (lit "ab") (lit "XY") (Some a1)]
        = Some (lit "<data name=" ++ quoted (lit "y") ++ lit " "
                ++ data_block (lit "x") (lit "XY")
                ++ data_block (lit "x") (lit "XY"))).
Proof. repeat split; intros; vm_compute; reflexivity. Qed.

End ReplacementFacts.

(** ** Further properties of the strings and of the extractor *)

Module StringFacts.
Import Re ReFacts Extractor ExtractorFacts.
Local Open Scope nat_scope.

Lemma lstrip_head s y z : lstrip s = y :: z -> is_space y = false.
Proof.
  induction s as [|x s IH]; simpl; [discriminate|].
  destruct (is_space x) eqn:E; [exact IH|].
  intros [= <- <-]. exact E.
Qed.

Lemma lstrip_fixed y z : is_space y = false -> lstrip (y :: z) = y :: z.
Proof. intros H. simpl. rewrite H. reflexivity. Qed.

Lemma lstrip_idem s : lstrip (lstrip s) = lstrip s.
Proof.
  destruct (lstrip s) as [|y z] eqn:E; [reflexivity|].
  apply lstrip_fixed. eapply lstrip_head. exact E.
Qed.

Lemma rstrip_split u : exists r, u = rstrip u ++ r /\ forallb is_space r = true.
Proof.
  destruct (lstrip_split (rev u)) as (l & E & Hl).
  exists (rev l). split; [|apply forallb_rev; assumption].
  unfold rstrip. rewrite <- rev_app_distr, <- E, rev_involutive. reflexivity.
Qed.

Lemma rstrip_idem u : rstrip (rstrip u) = rstrip u.
Proof. unfold rstrip. rewrite rev_involutive, lstrip_idem. reflexivity. Qed.

(** Stripping twice is stripping once. *)
Lemma strip_idem s : strip (strip s) = strip s.
Proof.
  unfold strip.
  assert (H : lstrip (rstrip (lstrip s)) = rstrip (lstrip s)).
  { destruct (rstrip (lstrip s)) as [|y z] eqn:E; [reflexivity|].
    apply lstrip_fixed.
    destruct (rstrip_split (lstrip s)) as (r & Er & _).
    rewrite E in Er. simpl in Er. eapply lstrip_head. exact Er. }
  rewrite H. apply rstrip_idem.
Qed.

Lemma strip_lstrip s : strip (lstrip s) = strip s.
Proof. unfold strip. rewrite lstrip_idem. reflexivity. Qed.

(** Under IGNORECASE the pattern character [<] still matches itself only. *)
Lemma ci_lit_lt c : ci_lit (ch "<") c = true -> c = ch "<".
Proof.
  unfold ci_lit, sre_lower, ch. simpl.
  destruct ((65 <=? c)%N && (c <=? 90)%N) eqn:E1.
  - apply andb_true_iff in E1 as [H1 H2].
    apply N.leb_le in H1. apply N.leb_le in H2.
    rewrite !orb_false_r. intros H. apply N.eqb_eq in H. lia.
  - destruct (c =? 304)%N eqn:E2; [simpl; discriminate|].
    destruct (c =? 8490)%N eqn:E3; [simpl; discriminate|].
    rewrite !orb_false_r. intros H. apply N.eqb_eq in H. exact H.
Qed.

Lemma pattern_needs_lt total s :
  match s with [] => True | x :: _ => x <> ch "<" end ->
  match_at pattern total s = None.
Proof.
  intros H. unfold match_at, pattern, block_shape, scalar_shape.
  cbn [exec]. destruct s as [|x s]; [reflexivity|].
  cbn [prefix_by lit List.map list_ascii_of_string].
  destruct (ci_lit (ch "<") x) eqn:E; [|reflexivity].
  apply ci_lit_lt in E. contradiction.
Qed.

Lemma scan_pattern_without_lt total : forall s,
  ~ In (ch "<") s -> scan pattern total 0 s = [].
Proof.
  induction s as [|x s IH]; intros H; [reflexivity|].
  cbn [scan]. rewrite pattern_needs_lt.
  - apply IH. intros Hin. apply H. right. exact Hin.
  - intros ->. apply H. left. reflexivity.
Qed.

(** X1. Content without the character [<] holds no fragment; [process_file]
    then stops with its warning. *)
Theorem no_markup_no_fragments content :
  ~ In (ch "<") content -> parse_translatable_content content = [].
Proof.
  intros H. unfold parse_translatable_content, all_matches, finditer.
  rewrite scan_pattern_without_lt by assumption. reflexivity.
Qed.

Lemma no_markup_no_fragments_witness :
  parse_translatable_content (lit "Stone and iron, nothing to translate > here") = [].
Proof.
  apply no_markup_no_fragments. vm_compute. intuition discriminate.
Defined.

(** X2. The source text of an extracted fragment is stripped: it neither starts
    nor ends with white space, whatever surrounded it in the file. *)
Theorem extracted_text_is_stripped content f :
  In f (parse_translatable_content content) ->
  strip (text f) = text f
  /\ (forall x t, text f = x :: t -> is_space x = false).
Proof.
  unfold parse_translatable_content, all_matches.
  rewrite filter_In, in_flat_map. intros [([w c] & _ & Hf) _].
  assert (Hs : strip (text f) = text f).
  { unfold fragment_of_match in Hf.
    destruct (truthy _); [|destruct (truthy _)]; simpl in Hf;
      try (destruct Hf as [<-|[]]; apply strip_idem); destruct Hf. }
  split; [exact Hs|]. intros x t E. rewrite E in Hs.
  apply ReplacementFacts.strip_fixed_head in Hs. exact Hs.
Qed.

Lemma extracted_text_is_stripped_witness :
  strip (lit "a b") = lit "a b".
Proof.
  apply (extracted_text_is_stripped
           (lit "<Tooltip>  a b " ++ [10%N] ++ lit "</Tooltip>")
           (Fragment (lit "Tooltip") (lit "a b") None)).
  left. reflexivity.
Defined.

End StringFacts.

(** ** Further properties of the scheduler *)

Module ShardSizes.
Import Scheduler SchedulerFacts.
Local Open Scope nat_scope.

Section Sizes.
Context {A : Type}.
Implicit Types (l : list A).

Lemma length_by_lookup l m :
  (forall n, n < m <-> is_Some (l !! n)) -> length l = m.
Proof.
  intros H. destruct (Nat.lt_trichotomy (length l) m) as [Hlt|[Heq|Hgt]].
  - apply H in Hlt. apply lookup_lt_is_Some in Hlt. lia.
  - exact Heq.
  - apply lookup_lt_is_Some, H in Hgt. lia.
Qed.

Lemma slice_length l i k :
  i < k -> length (slice i k l) = (length l + k - 1 - i) / k.
Proof.
  intros Hi. apply length_by_lookup. intros n.
  rewrite slice_lookup by lia. rewrite lookup_lt_is_Some. split.
  - intros Hn.
    pose proof (Nat.div_mod_eq (length l + k - 1 - i) k) as E.
    assert (H : k * S n <= k * ((length l + k - 1 - i) / k)) by nia.
    lia.
  - intros Hn. apply (Nat.div_le_lower_bound _ k (S n)); [lia|]. nia.
Qed.
End Sizes.

(** X3. The shards are balanced: shard [i] holds
    [(n + k - 1 - i) / k] fragments, so an earlier shard is never shorter
    than a later one and never longer by more than one; when there are more
    clients than fragments the surplus shards are empty. *)
Theorem shards_balanced {A : Type} (k : nat) (fragments : list A) i j si sj :
  i <= j ->
  batches k fragments !! i = Some si ->
  batches k fragments !! j = Some sj ->
  length si = (length fragments + k - 1 - i) / k
  /\ length sj <= length si <= length sj + 1
  /\ (length fragments <= j -> sj = []).
Proof.
  intros Hij Hi Hj.
  assert (Hjk : j < k).
  { apply lookup_lt_Some in Hj. rewrite batches_length in Hj. exact Hj. }
  rewrite batches_lookup in Hi, Hj by lia.
  injection Hi as <-. injection Hj as <-.
  rewrite !slice_length by lia.
  split; [reflexivity|]. split; [split|].
  - apply Nat.Div0.div_le_mono. lia.
  - replace (length fragments + k - 1 - i)
      with ((length fragments + k - 1 - j) + (j - i)) by lia.
    assert (Hd : j - i < k) by lia.
    pose proof (Nat.div_mod_eq (length fragments + k - 1 - j) k) as E.
    pose proof (Nat.mod_upper_bound (length fragments + k - 1 - j) k ltac:(lia)).
    apply Nat.lt_succ_r. apply Nat.Div0.div_lt_upper_bound. nia.
  - intros Hn. apply length_zero_iff_nil. rewrite slice_length by lia.
    apply Nat.div_small. lia.
Qed.

Lemma shards_balanced_witness :
  length [10; 13] = (5 + 3 - 1 - 0) / 3
  /\ length [12] <= length [10; 13] <= length [12] + 1
  /\ (5 <= 2 -> [12] = []).
Proof.
  apply (shards_balanced 3 [10; 11; 12; 13; 14] 0 2 [10; 13] [12]).
  - lia.
  - reflexivity.
  - reflexivity.
Defined.

End ShardSizes.

(** ** Further properties of the client *)

Module ClientMore.
Import Extractor Replacement Client Observers ClientFacts StringFacts.
Local Open Scope nat_scope.

Lemma posts_app a b : posts (a ++ b) = posts a + posts b.
Proof. unfold posts. rewrite List.filter_app, length_app. reflexivity. Qed.

Section WithWorld.
Variable uni_word : char -> bool.
Variable net : nat -> request -> response.
Variables url api_key : str.

Local Abbreviation attempt_text := (Client.attempt_text uni_word).
Local Abbreviation attempts := (Client.attempts uni_word net).
Local Abbreviation translate_text := (Client.translate_text uni_word net url api_key).
Local Abbreviation translate_loop := (Client.translate_loop uni_word net url api_key).
Local Abbreviation batch_translate := (Client.batch_translate uni_word net url api_key).
Local Abbreviation run_calls := (Client.run_calls uni_word net url api_key).

Lemma attempts_account rq key n : forall st o st' ev,
  attempts n rq key st = (o, st', ev) ->
  api_call_counter st' = api_call_counter st
  /\ sent st' = sent st + posts ev
  /\ match o with
     | Raised =>
         posts ev = n /\ sleeps ev = n /\ saves ev = []
         /\ cache st' = cache st
     | Returned v =>
         posts ev <= n /\ posts ev = sleeps ev + 1
         /\ saves ev = [cache st'] /\ cache st' = <[key := v]> (cache st)
     end.
Proof.
  induction n as [|n IH]; intros st o st' ev; simpl.
  - intros [= <- <- <-]. unfold posts, sleeps. simpl.
    repeat split; try reflexivity; lia.
  - destruct (attempt_text _) as [v|].
    + intros [= <- <- <-]. unfold posts, sleeps. simpl.
      repeat split; try reflexivity; lia.
    + destruct (attempts n rq key _) as [[o1 st1] ev1] eqn:E.
      intros [= <- <- <-]. apply IH in E as (Hc & Hs & Ho). simpl in Hc, Hs.
      unfold posts, sleeps in *. simpl.
      split; [exact Hc|]. split; [lia|].
      destruct o1; simpl in Ho; destruct Ho as (H1 & H2 & H3 & H4);
        repeat split; try assumption; lia.
Qed.

(** X4. Every call counts once in [api_call_counter]; the service receives
    exactly the requests the call posts; a call that raises has used all
    [MAX_RETRIES] attempts, slept after each and left the cache and the
    cache file alone; a call that returns has slept once less than it
    posted, or posted nothing at all. *)
Theorem call_accounting tag text st o st' ev :
  translate_text tag text st = (o, st', ev) ->
  api_call_counter st' = (api_call_counter st + 1)%N
  /\ sent st' = sent st + posts ev
  /\ match o with
     | Raised =>
         posts ev = MAX_RETRIES /\ sleeps ev = MAX_RETRIES
         /\ saves ev = [] /\ cache st' = cache st
     | Returned _ =>
         ev = [] \/ (1 <= posts ev <= MAX_RETRIES /\ posts ev = sleeps ev + 1)
     end.
Proof.
  unfold Client.translate_text.
  destruct (cache st !! cache_key tag text) as [v|].
  - intros [= <- <- <-]. unfold posts. simpl.
    split; [reflexivity|]. split; [lia|]. left. reflexivity.
  - intros H. apply attempts_account in H as (Hc & Hs & Ho). simpl in Hc, Hs.
    split; [exact Hc|]. split; [exact Hs|].
    destruct o; [right; unfold sleeps in *; lia | exact Ho].
Qed.

(** X5. Write-through, append-only cache: a call writes the cache file exactly
    when it obtained a new translation, and writes the cache that holds it
    under the key of the call; no call changes or removes an entry that was
    there before, and no call adds an entry under another key. *)
Theorem cache_write_through tag text st o st' ev :
  translate_text tag text st = (o, st', ev) ->
  let key := cache_key tag text in
  (forall k w, cache st !! k = Some w -> cache st' !! k = Some w)
  /\ (forall k, k <> key -> cache st' !! k = cache st !! k)
  /\ match o, cache st !! key with
     | Returned v, None =>
         cache st' = <[key := v]> (cache st) /\ saves ev = [cache st']
     | Returned v, Some w => v = w /\ cache st' = cache st /\ saves ev = []
     | Raised, _ => cache st' = cache st /\ saves ev = []
     end.
Proof.
  intros H key. split; [|split].
  - intros k w. eapply translate_keeps_entries. exact H.
  - intros k Hk. revert H. unfold Client.translate_text. fold key.
    destruct (cache st !! key) as [v|].
    + intros [= <- <- <-]. reflexivity.
    + intros H. apply attempts_account in H as (_ & _ & Ho).
      destruct o; simpl in Ho.
      * destruct Ho as (_ & _ & _ & ->). simpl.
        apply lookup_insert_ne. congruence.
      * destruct Ho as (_ & _ & _ & ->). reflexivity.
  - revert H. unfold Client.translate_text. fold key.
    destruct (cache st !! key) as [w|].
    + intros [= <- <- <-]. auto.
    + intros H. apply attempts_account in H as (_ & _ & Ho).
      destruct o; simpl in Ho; intuition.
Qed.

Lemma attempt_text_clean r v :
  attempt_text r = Some v -> v <> [] /\ strip v = v.
Proof.
  intros H. split; [eapply attempt_text_nonempty; exact H|].
  destruct r as [| |raw]; simpl in H; try discriminate.
  destruct (clean_translation uni_word (strip raw)) as [|x t] eqn:E;
    [discriminate|]. injection H as <-. rewrite <- E.
  unfold clean_translation. apply strip_idem.
Qed.

Lemma attempts_clean rq key n : forall st v st' ev,
  attempts n rq key st = (Returned v, st', ev) -> v <> [] /\ strip v = v.
Proof.
  induction n as [|n IH]; intros st v st' ev; simpl; [discriminate|].
  destruct (attempt_text _) as [w|] eqn:Ew.
  - intros [= <- <- <-]. eapply attempt_text_clean. exact Ew.
  - destruct (attempts n rq key _) as [[o1 st1] ev1] eqn:E.
    intros [= -> <- <-]. eapply IH. exact E.
Qed.

Lemma translate_clean tag text st o st' ev :
  cache_clean (cache st) ->
  translate_text tag text st = (o, st', ev) ->
  cache_clean (cache st')
  /\ forall v, o = Returned v -> v <> [] /\ strip v = v.
Proof.
  intros Hc. unfold Client.translate_text.
  destruct (cache st !! cache_key tag text) as [w|] eqn:Ek.
  - intros [= <- <- <-]. split; [exact Hc|]. intros v [= <-]. eapply Hc. exact Ek.
  - intros H. destruct o as [v|].
    + pose proof (attempts_clean _ _ _ _ _ _ _ H) as Hv.
      apply attempts_account in H as (_ & _ & _ & _ & _ & ->). simpl.
      split; [|intros ? [= <-]; exact Hv].
      intros k u. destruct (decide (cache_key tag text = k)) as [<-|Hk].
      * rewrite lookup_insert_eq. intros [= <-]. exact Hv.
      * rewrite lookup_insert_ne by assumption. apply Hc.
    + apply attempts_account in H as (_ & _ & _ & _ & _ & ->). simpl.
      split; [exact Hc | discriminate].
Qed.

(** X6. On a cache whose values are non-empty and stripped (the empty cache is
    one), any sequence of calls keeps the cache so, and every value a call
    returns is non-empty and stripped. *)
Theorem translations_stay_clean calls : forall st outs st',
  cache_clean (cache st) ->
  run_calls calls st = (outs, st') ->
  cache_clean (cache st')
  /\ forall v ev, In (Returned v, ev) outs -> v <> [] /\ strip v = v.
Proof.
  induction calls as [|[tg tx] rest IH]; intros st outs st' Hc; simpl.
  - intros [= <- <-]. split; [exact Hc | intros ? ? []].
  - destruct (translate_text tg tx st) as [[o st1] ev] eqn:E1.
    destruct (run_calls rest st1) as [os st2] eqn:E2.
    intros [= <- <-].
    destruct (translate_clean _ _ _ _ _ _ Hc E1) as [Hc1 Hv].
    destruct (IH _ _ _ Hc1 E2) as [Hc2 Hvs].
    split; [exact Hc2|]. intros v ev' [[= -> ->]|Hin].
    + apply Hv. reflexivity.
    + eapply Hvs. exact Hin.
Qed.

Lemma call_posts tag text st o st' ev :
  translate_text tag text st = (o, st', ev) ->
  posts ev <= MAX_RETRIES /\ sent st' = sent st + posts ev.
Proof.
  unfold Client.translate_text.
  destruct (cache st !! cache_key tag text) as [v|].
  - intros [= <- <- <-]. unfold posts. simpl. lia.
  - intros H. apply attempts_account in H as (_ & Hs & Ho). simpl in Hs.
    split; [|exact Hs]. destruct o; lia.
Qed.

Lemma loop_sources batch : forall acc st rs st' ev,
  translate_loop batch acc st = (Some rs, st', ev) ->
  List.map Pipeline.source_of rs = List.map Pipeline.source_of acc ++ batch.
Proof.
  induction batch as [|f rest IH]; intros acc st rs st' ev; simpl.
  - intros [= <- <- <-]. rewrite app_nil_r. reflexivity.
  - destruct (translate_text (tag f) (text f) st) as [[[v|] st1] ev1] eqn:E1;
      [|discriminate].
    destruct (translate_loop rest _ st1) as [[r st2] ev2] eqn:E2.
    intros [= -> <- <-]. apply IH in E2. rewrite E2, List.map_app. simpl.
    rewrite <- app_assoc. destruct f. reflexivity.
Qed.

Lemma loop_requests batch : forall acc st r st' ev,
  translate_loop batch acc st = (r, st', ev) ->
  posts ev <= MAX_RETRIES * length batch /\ sent st' = sent st + posts ev.
Proof.
  induction batch as [|f rest IH]; intros acc st r st' ev; simpl.
  - intros [= <- <- <-]. unfold posts. simpl. lia.
  - destruct (translate_text (tag f) (text f) st) as [[o st1] ev1] eqn:E1.
    pose proof (call_posts _ _ _ _ _ _ E1) as [Hp Hs].
    destruct o as [v|].
    + destruct (translate_loop rest _ st1) as [[r2 st2] ev2] eqn:E2.
      intros [= <- <- <-]. apply IH in E2 as [H1 H2].
      rewrite posts_app. unfold MAX_RETRIES in *. lia.
    + intros [= <- <- <-]. unfold MAX_RETRIES in *. lia.
Qed.

Lemma translate_nonempty tag text st o st' ev :
  cache_nonempty (cache st) ->
  translate_text tag text st = (o, st', ev) ->
  cache_nonempty (cache st') /\ forall v, o = Returned v -> v <> [].
Proof.
  intros Hc. unfold Client.translate_text.
  destruct (cache st !! cache_key tag text) as [w|] eqn:Ek.
  - intros [= <- <- <-]. split; [exact Hc|]. intros v [= <-] ->.
    exact (Hc _ Ek).
  - intros H. destruct o as [v|].
    + pose proof (attempts_clean _ _ _ _ _ _ _ H) as [Hv _].
      apply attempts_account in H as (_ & _ & _ & _ & _ & ->). simpl.
      split; [|intros ? [= <-]; exact Hv].
      intros k. destruct (decide (cache_key tag text = k)) as [<-|Hk].
      * rewrite lookup_insert_eq. intros [= ->]. apply Hv. reflexivity.
      * rewrite lookup_insert_ne by assumption. apply Hc.
    + apply attempts_account in H as (_ & _ & _ & _ & _ & ->). simpl.
      split; [exact Hc | discriminate].
Qed.

Lemma loop_translations batch : forall acc st rs st' ev,
  cache_nonempty (cache st) ->
  Forall (fun r => tr_translated r <> []) acc ->
  translate_loop batch acc st = (Some rs, st', ev) ->
  Forall (fun r => tr_translated r <> []) rs.
Proof.
  induction batch as [|f rest IH]; intros acc st rs st' ev Hc Hacc; simpl.
  - intros [= <- <- <-]. exact Hacc.
  - destruct (translate_text (tag f) (text f) st) as [[[v|] st1] ev1] eqn:E1;
      [|discriminate].
    destruct (translate_nonempty _ _ _ _ _ _ Hc E1) as [Hc1 Hv].
    destruct (translate_loop rest _ st1) as [[r st2] ev2] eqn:E2.
    intros [= -> <- <-]. eapply IH; [exact Hc1 | | exact E2].
    apply Forall_app. split; [exact Hacc|]. constructor; [|constructor].
    simpl. apply (Hv v eq_refl).
Qed.

Lemma batch_sources batch st rs st' ev :
  batch_translate batch st = (rs, st', ev) ->
  List.map Pipeline.source_of rs = batch.
Proof.
  unfold Client.batch_translate.
  destruct (translate_loop batch [] st) as [[[r|] st1] ev1] eqn:E.
  - intros [= <- <- <-]. apply loop_sources in E. exact E.
  - intros [= <- <- <-].
    rewrite List.map_map. rewrite <- (List.map_id batch) at 2.
    apply List.map_ext. intros []. reflexivity.
Qed.

(** X7. The result of a shard lists its fragments in their order, each with its
    tag, source text and anchor and one translation, whether the calls
    succeeded or not; and when no cached value and no source text is empty,
    no translation in the result is empty. *)
Theorem shard_results_keep_fragments batch st rs st' ev :
  batch_translate batch st = (rs, st', ev) ->
  List.map Pipeline.source_of rs = batch
  /\ (cache_nonempty (cache st) ->
      Forall (fun f => text f <> []) batch ->
      Forall (fun r => tr_translated r <> []) rs).
Proof.
  intros H. split; [eapply batch_sources; exact H|]. revert H.
  unfold Client.batch_translate.
  destruct (translate_loop batch [] st) as [[[r|] st1] ev1] eqn:E.
  - intros [= <- <- <-] Hc _.
    eapply loop_translations; [exact Hc | constructor | exact E].
  - intros [= <- <- <-] _ Hb. apply Forall_map. simpl. exact Hb.
Qed.

(** X8. A shard posts at most [MAX_RETRIES] requests per fragment, and the
    service receives exactly the requests the shard posts. *)
Theorem shard_request_bound batch st rs st' ev :
  batch_translate batch st = (rs, st', ev) ->
  posts ev <= MAX_RETRIES * length batch /\ sent st' = sent st + posts ev.
Proof.
  unfold Client.batch_translate.
  destruct (translate_loop batch [] st) as [[[r|] st1] ev1] eqn:E;
    intros [= <- <- <-]; eapply loop_requests; exact E.
Qed.
End WithWorld.

Lemma same_by_chars e l w x :
  Re.same_by e l w -> In x w -> exists p, In p l /\ e p x = true.
Proof.
  intros H. induction H as [|p y l w Hpy Hlw IH]; intros Hin; [destruct Hin|].
  destruct Hin as [<-|Hin].
  - exists p. split; [left; reflexivity | exact Hpy].
  - destruct (IH Hin) as (q & Hq & He). exists q. split; [right|]; assumption.
Qed.

Lemma name_no_colon l t :
  forallb (fun p => negb (ci_lit p (ch ":"))) l = true ->
  Re.same_by ci_lit l t -> ~ In (ch ":") t.
Proof.
  intros Hl Hs Hin.
  destruct (same_by_chars _ _ _ _ Hs Hin) as (p & Hp & He).
  rewrite forallb_forall in Hl. specialize (Hl p Hp).
  rewrite He in Hl. discriminate.
Qed.

Lemma extracted_tag_no_colon content f :
  In f (parse_translatable_content content) -> ~ In (ch ":") (tag f).
Proof.
  unfold parse_translatable_content. rewrite filter_In. intros [Hin _].
  apply ExtractorFacts.fragment_shape in Hin as [[-> _]|[[H|[H|H]] _]].
  - vm_compute. intuition discriminate.
  - eapply name_no_colon; [|exact H]. reflexivity.
  - eapply name_no_colon; [|exact H]. reflexivity.
  - eapply name_no_colon; [|exact H]. reflexivity.
Qed.

Lemma cache_key_inj t1 : forall t2 x1 x2,
  ~ In (ch ":") t1 -> ~ In (ch ":") t2 ->
  cache_key t1 x1 = cache_key t2 x2 -> t1 = t2 /\ x1 = x2.
Proof.
  unfold cache_key.
  induction t1 as [|a t1 IH]; intros [|b t2] x1 x2 H1 H2; simpl.
  - intros [= ->]. auto.
  - intros [= <- _]. exfalso. apply H2. left. reflexivity.
  - intros [= -> _]. exfalso. apply H1. left. reflexivity.
  - intros [= <- E]. apply IH in E as [-> ->]; [auto| |].
    + intros Hin. apply H1. right. exact Hin.
    + intros Hin. apply H2. right. exact Hin.
Qed.

(** X9. Cache keys of extracted fragments do not collide: two fragments, of any
    files, get the same key only when they have the same tag and the same
    source text.  (The tag of a fragment never holds a colon; for arbitrary
    tags the key does not determine the pair.) *)
Theorem extracted_keys_do_not_collide c1 c2 f1 f2 :
  In f1 (parse_translatable_content c1) ->
  In f2 (parse_translatable_content c2) ->
  cache_key (tag f1) (text f1) = cache_key (tag f2) (text f2) ->
  tag f1 = tag f2 /\ text f1 = text f2.
Proof.
  intros H1 H2. apply cache_key_inj; eapply extracted_tag_no_colon; eauto.
Qed.

Import Samples.

Lemma extracted_keys_do_not_collide_witness :
  lit "value" = lit "value" /\ lit "Stone" = lit "Stone".
Proof.
  apply (extracted_keys_do_not_collide stone
           (lit "<root>" ++ stone ++ lit "</root>")
           (Fragment (lit "value") (lit "Stone") (Some stone))
           (Fragment (lit "value") (lit "Stone") (Some stone))).
  - left. reflexivity.
  - left. reflexivity.
  - reflexivity.
Defined.

Lemma call_accounting_witness :
  let rq := make_request url0 key0 (lit "ab") in
  sent (State ∅ 1 3) = sent st0 + posts (failed_attempts 3 rq)
  /\ posts (failed_attempts 3 rq) = MAX_RETRIES.
Proof.
  intros rq.
  destruct (call_accounting no_word net_down url0 key0 (lit "Tooltip") (lit "ab")
              st0 Raised (State ∅ 1 3) (failed_attempts 3 rq) eq_refl)
    as (_ & H1 & H2 & _).
  split; [exact H1 | exact H2].
Defined.

Lemma cache_write_through_witness :
  let c := <[lit "Tooltip:ab" := lit "ok"]> (∅ : gmap str str) in
  saves [Post (make_request url0 key0 (lit "ab")); Sleep 4;
         Post (make_request url0 key0 (lit "ab")); SaveCache c] = [c].
Proof.
  intros c.
  destruct (cache_write_through no_word net_fail_then_ok url0 key0
              (lit "Tooltip") (lit "ab") st0 (Returned (lit "ok")) (State c 1 2)
              [Post (make_request url0 key0 (lit "ab")); Sleep 4;
               Post (make_request url0 key0 (lit "ab")); SaveCache c] eq_refl)
    as (_ & _ & _ & H).
  exact H.
Defined.

Lemma translations_stay_clean_witness :
  lit "ok" <> [] /\ strip (lit "ok") = lit "ok".
Proof.
  destruct (run_calls no_word net_blank_then_ok url0 key0
              [(lit "Tooltip", lit "ab"); (lit "Tooltip", lit "ab")] st0)
    as [outs st'] eqn:E.
  destruct (translations_stay_clean no_word net_blank_then_ok url0 key0
              [(lit "Tooltip", lit "ab"); (lit "Tooltip", lit "ab")]
              st0 outs st') as [_ H].
  - intros k v Hk. simpl in Hk. rewrite lookup_empty in Hk. discriminate.
  - exact E.
  - apply (H (lit "ok") []). vm_compute in E. injection E as <- _.
    right. left. reflexivity.
Defined.

Lemma shard_results_keep_fragments_witness :
  List.map Pipeline.source_of
    [Translation (lit "Tooltip") (lit "ab") (lit " ok") None]
  = [frag_ab]
  /\ Forall (fun r => tr_translated r <> [])
       [Translation (lit "Tooltip") (lit "ab") (lit " ok") None].
Proof.
  destruct (shard_results_keep_fragments no_word net_down url0 key0
              [frag_ab] st_cached
              [Translation (lit "Tooltip") (lit "ab") (lit " ok") None]
              (State (<[lit "Tooltip:ab" := lit " ok"]> ∅) 1 0) [] eq_refl)
    as [H1 H2].
  split; [exact H1|]. apply H2.
  - intros k. unfold st_cached. simpl.
    destruct (decide (lit "Tooltip:ab" = k)) as [<-|Hk].
    + rewrite lookup_insert_eq. discriminate.
    + rewrite lookup_insert_ne by assumption. rewrite lookup_empty. discriminate.
  - constructor; [discriminate | constructor].
Defined.

Lemma shard_request_bound_witness :
  posts [Post (make_request url0 key0 (lit "ab"));
         SaveCache (<[lit "Tooltip:ab" := lit "T1"]> ∅)] <= MAX_RETRIES * 1.
Proof.
  destruct (shard_request_bound no_word net_ok_then_down url0 key0
              [frag_ab] st0
              [Translation (lit "Tooltip") (lit "ab") (lit "T1") None]
              (State (<[lit "Tooltip:ab" := lit "T1"]> ∅) 1 1)
              [Post (make_request url0 key0 (lit "ab"));
               SaveCache (<[lit "Tooltip:ab" := lit "T1"]> ∅)] eq_refl)
    as [H _].
  exact H.
Defined.

End ClientMore.

(** ** Sanitization of the service's answer *)

Module CleanFacts.
Import Re ReFacts Client Observers StringFacts.
Local Open Scope nat_scope.

Lemma erase_scan r s : erase r s = sub_scan r (length s) [] 0 s.
Proof. reflexivity. Qed.

Lemma drop_head_in {A} (s : list A) : forall i x u,
  drop i s = x :: u -> In x s.
Proof.
  induction s as [|y s IH]; intros i x u; [rewrite drop_nil; discriminate|].
  destruct i as [|i]; simpl.
  - intros [= -> _]. left. reflexivity.
  - intros H. right. eapply IH. exact H.
Qed.

(** A pattern that needs [<] at its start leaves a string without [<] as
    it is. *)
Lemma erase_without_lt r s :
  (forall total x u, x <> ch "<" -> match_at r total (x :: u) = None) ->
  ~ In (ch "<") s -> erase r s = s.
Proof.
  intros Hr Hs. rewrite erase_scan. apply sub_scan_nothing. intros i Hi.
  destruct (drop i s) as [|x u] eqn:E.
  - apply (f_equal (@length _)) in E. rewrite length_drop in E. simpl in E. lia.
  - apply Hr. intros ->. apply Hs. eapply drop_head_in. exact E.
Qed.

Lemma literal_needs_head e a l k total x u :
  e a x = false ->
  match_at (Seq (Str e (a :: l)) k) total (x :: u) = None.
Proof. intros H. unfold match_at. cbn [exec prefix_by]. rewrite H. reflexivity. Qed.

Lemma literal_only_needs_head e a l total x u :
  e a x = false -> match_at (Str e (a :: l)) total (x :: u) = None.
Proof. intros H. unfold match_at. cbn [exec prefix_by]. rewrite H. reflexivity. Qed.

Lemma eqb_lt_false x : x <> ch "<" -> (ch "<" =? x)%N = false.
Proof. intros H. apply N.eqb_neq. congruence. Qed.

(** The anchored pattern matches at the start of the subject only. *)
Lemma bol_needs_start k total u :
  length u <> total -> match_at (Seq Bol k) total u = None.
Proof.
  intros H. unfold match_at. cbn [exec].
  apply Nat.eqb_neq in H. rewrite H. reflexivity.
Qed.

Section WithWord.
Variable uni_word : char -> bool.

Lemma tail_patterns :
  Forall (fun r => forall total x u,
              x <> ch "<" -> match_at r total (x :: u) = None)
         (tl (clean_patterns uni_word)).
Proof.
  unfold clean_patterns. cbn [tl].
  repeat constructor; intros total x u Hx.
  - apply literal_needs_head. apply eqb_lt_false. exact Hx.
  - apply literal_needs_head. apply eqb_lt_false. exact Hx.
  - apply literal_only_needs_head. apply eqb_lt_false. exact Hx.
  - apply literal_only_needs_head. apply eqb_lt_false. exact Hx.
Qed.

Lemma tail_erased s :
  ~ In (ch "<") s ->
  fold_left (fun acc r => erase r acc) (tl (clean_patterns uni_word)) s = s.
Proof.
  intros Hs. pose proof tail_patterns as H.
  induction H as [|r rs Hr Hrs IH]; [reflexivity|].
  simpl. rewrite (erase_without_lt r s Hr Hs). exact IH.
Qed.

Lemma clean_after_head s :
  ~ In (ch "<") (erase (hd Eps (clean_patterns uni_word)) s) ->
  clean_translation uni_word s
  = strip (erase (hd Eps (clean_patterns uni_word)) s).
Proof.
  intros H. unfold clean_translation.
  change (fold_left (fun acc r => erase r acc) (clean_patterns uni_word) s)
    with (fold_left (fun acc r => erase r acc) (tl (clean_patterns uni_word))
            (erase (hd Eps (clean_patterns uni_word)) s)).
  rewrite tail_erased by assumption. reflexivity.
Qed.

Lemma head_pattern_misses s :
  strip_prefix label_display s = None ->
  strip_prefix label_description s = None ->
  strip_prefix label_tooltip s = None ->
  erase (hd Eps (clean_patterns uni_word)) s = s.
Proof.
  intros H1 H2 H3. rewrite erase_scan. apply sub_scan_nothing.
  intros i Hi. destruct i as [|i].
  - change (drop 0 s) with s. unfold match_at.
    cbn [hd clean_patterns exec]. unfold labels3. cbn [exec].
    rewrite Nat.eqb_refl, !prefix_by_eqb, H1, H2, H3. reflexivity.
  - apply bol_needs_start. rewrite length_drop. lia.
Qed.

(** X10. A text without [<] that does not start with one of the three labels is
    returned stripped and otherwise unchanged. *)
Theorem clean_keeps_plain_text t :
  ~ In (ch "<") t ->
  strip_prefix label_display t = None ->
  strip_prefix label_description t = None ->
  strip_prefix label_tooltip t = None ->
  clean_translation uni_word t = strip t.
Proof.
  intros Ht H1 H2 H3.
  rewrite clean_after_head; rewrite head_pattern_misses by assumption;
    [reflexivity | exact Ht].
Qed.

Lemma star_greedy_always {R} (f : str -> R) : forall s,
  star_greedy is_space (fun t => Some (f t)) s = Some (f (lstrip s)).
Proof.
  induction s as [|x s IH]; simpl; [reflexivity|].
  destruct (is_space x); [rewrite IH|]; reflexivity.
Qed.

Lemma head_pattern_at_label total L rest :
  In L [label_display; label_description; label_tooltip] ->
  length (L ++ rest) = total ->
  exists c,
    match_at (hd Eps (clean_patterns uni_word)) total (L ++ rest)
    = Some (lstrip (after_colon rest), c).
Proof.
  intros HL Hlen. unfold match_at.
  cbn [hd clean_patterns exec]. unfold labels3, Opt. cbn [exec].
  apply Nat.eqb_eq in Hlen. rewrite Hlen.
  assert (Htail : forall (c : caps),
    match
      match rest with
      | [] => None
      | x :: t => if colon x then star_greedy is_space (fun t0 => Some (t0, c)) t
                  else None
      end
    with
    | Some r => Some r
    | None => star_greedy is_space (fun t0 => Some (t0, c)) rest
    end = Some (lstrip (after_colon rest), c)).
  { intros c. unfold after_colon. destruct rest as [|x t].
    - reflexivity.
    - destruct (colon x); rewrite star_greedy_always; reflexivity. }
  destruct HL as [<-|[<-|[<-|[]]]].
  - rewrite (prefix_by_complete N.eqb label_display label_display)
      by (apply same_by_eqb; reflexivity).
    rewrite Htail. eexists. reflexivity.
  - replace (prefix_by N.eqb label_display (label_description ++ rest))
      with (@None str) by reflexivity.
    rewrite (prefix_by_complete N.eqb label_description label_description)
      by (apply same_by_eqb; reflexivity).
    rewrite Htail. eexists. reflexivity.
  - replace (prefix_by N.eqb label_display (label_tooltip ++ rest))
      with (@None str) by reflexivity.
    replace (prefix_by N.eqb label_description (label_tooltip ++ rest))
      with (@None str) by reflexivity.
    rewrite (prefix_by_complete N.eqb label_tooltip label_tooltip)
      by (apply same_by_eqb; reflexivity).
    rewrite Htail. eexists. reflexivity.
Qed.

Lemma lstrip_in x s : In x (lstrip s) -> In x s.
Proof.
  induction s as [|y s IH]; simpl; [tauto|].
  destruct (is_space y); [intros H; right; apply IH; exact H | tauto].
Qed.

Lemma after_colon_in x s : In x (after_colon s) -> In x s.
Proof.
  destruct s as [|c r]; simpl; [tauto|]. destruct (colon c); simpl; tauto.
Qed.

Lemma head_pattern_strips_label L rest :
  In L [label_display; label_description; label_tooltip] ->
  erase (hd Eps (clean_patterns uni_word)) (L ++ rest)
  = lstrip (after_colon rest).
Proof.
  intros HL. rewrite erase_scan.
  destruct (head_pattern_at_label (length (L ++ rest)) L rest HL eq_refl)
    as (c & Hm).
  destruct (match_at_sound _ _ _ _ _ Hm) as (w & E & _).
  assert (Hw : w <> []).
  { intros ->. simpl in E. apply (f_equal (@length _)) in E.
    rewrite length_app in E.
    pose proof (ReplacementFacts.length_lstrip (after_colon rest)).
    assert (length (after_colon rest) <= length rest).
    { destruct rest as [|x r]; simpl; [lia|]. destruct (colon x); simpl; lia. }
    destruct HL as [<-|[<-|[<-|[]]]]; simpl in E; lia. }
  rewrite E in Hm |- *. rewrite (sub_scan_match _ _ _ w _ c Hw Hm). simpl.
  apply sub_scan_nothing. intros i Hi. apply bol_needs_start.
  rewrite length_drop, length_app. destruct w; [congruence|]. simpl. lia.
Qed.

(** X11. A label that the service echoes at the start of its answer is removed,
    with one colon after it and the white space that follows. *)
Theorem clean_strips_label_echo L rest :
  In L [label_display; label_description; label_tooltip] ->
  ~ In (ch "<") rest ->
  clean_translation uni_word (L ++ rest) = strip (after_colon rest).
Proof.
  intros HL Hrest.
  rewrite clean_after_head; rewrite head_pattern_strips_label by assumption.
  - apply strip_lstrip.
  - intros Hin. apply Hrest. apply after_colon_in, lstrip_in. exact Hin.
Qed.
End WithWord.

Lemma clean_keeps_plain_text_witness :
  clean_translation Samples.no_word (lit "  Stone: 3 > 2 ") = lit "Stone: 3 > 2".
Proof.
  apply (clean_keeps_plain_text Samples.no_word (lit "  Stone: 3 > 2 "));
    try reflexivity.
  vm_compute. intuition discriminate.
Defined.

Lemma clean_strips_label_echo_witness :
  clean_translation Samples.no_word (label_tooltip ++ [65306%N] ++ lit " open ")
  = lit "open".
Proof.
  apply (clean_strips_label_echo Samples.no_word label_tooltip
           ([65306%N] ++ lit " open ")).
  - right. right. left. reflexivity.
  - vm_compute. intuition discriminate.
Defined.

End CleanFacts.

(** ** Further properties of the replacement engine *)

Module ReplacementMore.
Import Re ReFacts Extractor Replacement ReplacementFacts Observers.
Local Open Scope nat_scope.

Lemma no_backslash_cons x s :
  no_backslash (x :: s) = negb (x =? ch "\")%N && no_backslash s.
Proof. reflexivity. Qed.

Lemma sub_scan_plain r total rep :
  no_backslash rep = true ->
  forall s skip, no_backslash s = true ->
  no_backslash (sub_scan r total (List.map TChr rep) skip s) = true.
Proof.
  intros Hrep. induction s as [|x s IH]; intros skip Hs; [reflexivity|].
  rewrite no_backslash_cons in Hs. apply andb_true_iff in Hs as [Hx Hs].
  cbn [sub_scan]. destruct skip as [|n]; [|apply IH; exact Hs].
  destruct (match_at r total (x :: s)) as [[rest c]|].
  - rewrite expand_plain, no_backslash_app, Hrep, andb_true_l.
    destruct (length (x :: s) - length rest) as [|m].
    + rewrite no_backslash_cons, Hx, andb_true_l. apply IH. exact Hs.
    + apply IH. exact Hs.
  - rewrite no_backslash_cons, Hx, andb_true_l. apply IH. exact Hs.
Qed.

Lemma replacement_of_plain t :
  plain_result t = true ->
  Forall (fun pr => (exists r, fst pr = Compiled r)
                    /\ no_backslash (snd pr) = true) (replacement_of t).
Proof.
  unfold plain_result, replacement_of. intros H.
  apply andb_true_iff in H as [H Hc]. apply andb_true_iff in H as [Htag HT].
  destruct (if str_eqb _ _ then _ else _) as [ctx|] eqn:E.
  - assert (Hctx : no_backslash ctx = true).
    { destruct (str_eqb _ _); [|discriminate].
      destruct (tr_context t) as [[|y a]|]; try discriminate.
      injection E as <-. exact Hc. }
    rewrite sub_plain by (apply no_backslash_wrap; [reflexivity | exact HT]).
    constructor; [|constructor]. cbn [fst snd]. split; [eexists; reflexivity|].
    apply sub_scan_plain; [|exact Hctx].
    apply no_backslash_wrap; [reflexivity | exact HT].
  - rewrite scalar_pattern_literal by exact Htag.
    constructor; [|constructor]. cbn [fst snd]. split; [eexists; reflexivity|].
    apply no_backslash_wrap; [apply pattern_literal_no_backslash|]; assumption.
Qed.

Lemma contains_false_drop p : forall s i,
  contains p s = false -> strip_prefix p (drop i s) = None.
Proof.
  induction s as [|x s IH]; intros i; simpl.
  - rewrite drop_nil. destruct (strip_prefix p []); [discriminate | reflexivity].
  - destruct (strip_prefix p (x :: s)) eqn:E; [discriminate|].
    intros H. destruct i as [|i]; [exact E | apply IH; exact H].
Qed.

Lemma scalar_match_needs_tag total tag original s :
  strip_prefix (lit "<" ++ tag ++ lit ">") s = None ->
  match_at (scalar_literal tag original) total s = None.
Proof.
  intros H. unfold match_at, scalar_literal. cbn [exec].
  rewrite prefix_by_eqb, H. reflexivity.
Qed.

Section WithLibrary.
Variable re_sub : str -> str -> str -> option str.

Local Abbreviation apply_all := (Replacement.apply_all re_sub).
Local Abbreviation replace_translated_content :=
  (Replacement.replace_translated_content re_sub).

Lemma apply_all_plain rs :
  Forall (fun pr => (exists r, fst pr = Compiled r)
                    /\ no_backslash (snd pr) = true) rs ->
  forall content, exists out, apply_all rs content = Some out.
Proof.
  induction 1 as [|[p r] rs [[q Hq] Hr] Hrs IH]; intros content;
    cbn [Replacement.apply_all].
  - exists content. reflexivity.
  - cbn [fst snd] in Hq, Hr. subst p. cbn [sub_pattern].
    rewrite sub_plain by assumption. apply IH.
Qed.

Lemma apply_all_app rs1 : forall rs2 content,
  apply_all (rs1 ++ rs2) content
  = match apply_all rs1 content with
    | Some c => apply_all rs2 c
    | None => None
    end.
Proof.
  induction rs1 as [|[p r] rs1 IH]; intros rs2 content; simpl; [reflexivity|].
  destruct (sub_pattern re_sub p r content); [apply IH | reflexivity].
Qed.

(** X12. The results are applied one after another, in the order of the list,
    each to the output of the one before; an exception stops the rest. *)
Theorem replacement_composes content ts1 ts2 :
  replace_translated_content content (ts1 ++ ts2)
  = match replace_translated_content content ts1 with
    | Some c => replace_translated_content c ts2
    | None => None
    end.
Proof.
  unfold Replacement.replace_translated_content. rewrite flat_map_app.
  apply apply_all_app.
Qed.

(** X13. When every tag stands for itself in a pattern, holding none of the
    characters [pattern_meta], and no translation or anchor holds a
    backslash, the engine raises nothing and writes some content. *)
Theorem plain_results_never_raise content ts :
  forallb plain_result ts = true ->
  exists out, replace_translated_content content ts = Some out.
Proof.
  intros H. unfold Replacement.replace_translated_content. apply apply_all_plain.
  rewrite forallb_forall in H. apply Forall_flat_map.
  apply List.Forall_forall. intros t Ht. apply replacement_of_plain.
  apply H. exact Ht.
Qed.

Lemma absent_target_step content t :
  plain_result t = true -> target_absent content t = true ->
  apply_all (replacement_of t) content = Some content.
Proof.
  intros Hp Ha. pose proof (replacement_of_plain t Hp) as Hplain.
  assert (Htag : pattern_literal (tr_tag t) = true).
  { unfold plain_result in Hp. apply andb_true_iff in Hp as [Hp _].
    apply andb_true_iff in Hp as [Hp _]. exact Hp. }
  unfold target_absent in Ha. unfold replacement_of in *.
  destruct (if str_eqb _ _ then _ else _) as [ctx|].
  - destruct (sub (value_pattern _) _ ctx) as [new|]; [|reflexivity].
    inversion Hplain as [|? ? [_ Hnew] _]; subst. cbn [snd] in Hnew.
    cbn [Replacement.apply_all sub_pattern]. rewrite sub_plain by assumption.
    rewrite sub_scan_nothing; [reflexivity|].
    intros i _. rewrite escape_match, contains_false_drop; [reflexivity|].
    apply negb_true_iff. exact Ha.
  - rewrite scalar_pattern_literal in * by exact Htag.
    inversion Hplain as [|? ? [_ Hnew] _]; subst. cbn [snd] in Hnew.
    cbn [Replacement.apply_all sub_pattern]. rewrite sub_plain by assumption.
    rewrite sub_scan_nothing; [reflexivity|].
    intros i _. apply scalar_match_needs_tag. apply contains_false_drop.
    apply negb_true_iff. exact Ha.
Qed.

(** X14. A result whose anchor (for a value result) or opening tag (for any
    other) is not in the content is passed over in silence: with such
    results only, whose tags stand for themselves in a pattern and which
    hold no backslash, the content is written out unchanged. *)
Theorem absent_targets_are_ignored content ts :
  forallb (fun t => plain_result t && target_absent content t) ts = true ->
  replace_translated_content content ts = Some content.
Proof.
  unfold Replacement.replace_translated_content.
  induction ts as [|t ts IH]; intros H; [reflexivity|].
  simpl in H. apply andb_true_iff in H as [Ht Hts].
  apply andb_true_iff in Ht as [Hp Ha].
  cbn [flat_map]. rewrite apply_all_app, absent_target_step by assumption.
  apply IH. exact Hts.
Qed.

End WithLibrary.

Import Samples.

Lemma plain_results_never_raise_witness :
  exists out,
    replace_translated_content re_sub_raises two_tooltips
      [Translation (lit "Tooltip") (lit "ab") (lit "XY") None;
       Translation (lit "value") (lit "Stone") shitou (Some stone)] = Some out.
Proof.
  apply (plain_results_never_raise re_sub_raises two_tooltips
           [Translation (lit "Tooltip") (lit "ab") (lit "XY") None;
            Translation (lit "value") (lit "Stone") shitou (Some stone)]).
  reflexivity.
Defined.

Lemma absent_targets_are_ignored_witness :
  replace_translated_content re_sub_raises two_tooltips
    [Translation (lit "value") (lit "Stone") shitou (Some stone);
     Translation (lit "Description") (lit "ab") (lit "XY") None]
  = Some two_tooltips.
Proof.
  apply (absent_targets_are_ignored re_sub_raises two_tooltips
           [Translation (lit "value") (lit "Stone") shitou (Some stone);
            Translation (lit "Description") (lit "ab") (lit "XY") None]).
  reflexivity.
Defined.

End ReplacementMore.

(** ** Configuration files *)

Module ConfigFacts.
Import Extractor Config StringFacts.
Local Open Scope nat_scope.

Lemma truthy_true s : truthy s = true <-> s <> [].
Proof. destruct s; simpl; split; congruence. Qed.

Lemma str_eqb_eq a : forall b, str_eqb a b = true <-> a = b.
Proof.
  induction a as [|x a IH]; intros [|y b]; simpl; split; try congruence.
  - intros H. apply andb_true_iff in H as [Hx Hab].
    apply N.eqb_eq in Hx as ->. apply IH in Hab as ->. reflexivity.
  - intros [= -> ->]. rewrite N.eqb_refl. apply IH. reflexivity.
Qed.

Lemma keys_eqb_eq a : forall b, keys_eqb a b = true <-> a = b.
Proof.
  induction a as [|x a IH]; intros [|y b]; simpl; split; try congruence.
  - intros H. apply andb_true_iff in H as [Hx Hab].
    apply str_eqb_eq in Hx as ->. apply IH in Hab as ->. reflexivity.
  - intros [= -> ->]. apply andb_true_iff. split.
    + apply str_eqb_eq. reflexivity.
    + apply IH. reflexivity.
Qed.

(** X15. An empty file raises; otherwise the first line is never an id, blank
    lines are dropped, and the ids are the other lines, stripped, in their
    order: each id is non-empty and has no white space around it. *)
Theorem mod_ids_are_stripped_lines lines :
  (load_mod_ids lines = None <-> lines = [])
  /\ forall ids, load_mod_ids lines = Some ids ->
       Forall (fun id => id <> [] /\ strip id = id) ids
       /\ (forall id, In id ids <->
                      exists line, In line (tl lines) /\ strip line = id
                                   /\ id <> [])
       /\ length ids <= length lines - 1.
Proof.
  split.
  - destruct lines; simpl; split; congruence.
  - intros ids. destruct lines as [|first rest]; simpl; [discriminate|].
    intros [= <-].
    assert (Hin : forall id,
      In id (List.map strip (List.filter (fun l => truthy (strip l)) rest))
      <-> exists line, In line rest /\ strip line = id /\ id <> []).
    { intros id. rewrite in_map_iff. split.
      - intros (line & <- & Hl). apply filter_In in Hl as [Hl Ht].
        apply truthy_true in Ht. exists line. auto.
      - intros (line & Hl & <- & Hne). exists line. split; [reflexivity|].
        apply filter_In. split; [exact Hl | apply truthy_true; exact Hne]. }
    split; [|split; [exact Hin|]].
    + apply List.Forall_forall. intros id Hid.
      apply Hin in Hid as (line & _ & <- & Hne).
      split; [exact Hne | apply strip_idem].
    + rewrite length_map, Nat.sub_0_r. apply List.filter_length_le.
Qed.

Lemma mod_ids_are_stripped_lines_witness :
  Forall (fun id => id <> [] /\ strip id = id) [lit "1234"; lit "5678"].
Proof.
  destruct (mod_ids_are_stripped_lines
              [lit "C:/mods"; lit " 1234 "; lit "   "; lit "5678"]) as [_ H].
  apply (H [lit "1234"; lit "5678"]). reflexivity.
Defined.

(** X16. A configuration is accepted only with a non-empty key list that holds
    at least one non-blank key and is not the generated default, and with a
    URL that is non-empty once stripped and is not the placeholder; the
    keys are returned as they are, blank ones included, so the number of
    translators is the number of listed keys and at least one. *)
Theorem accepted_config cfg keys url :
  load_api_config cfg = Some (keys, url) ->
  cfg_api_keys cfg = Some keys
  /\ 1 <= length keys
  /\ (exists k, In k keys /\ strip k <> [])
  /\ keys <> DEFAULT_KEYS
  /\ url <> [] /\ strip url = url /\ url <> DEFAULT_URL
  /\ (exists raw, cfg_api_url cfg = Some raw /\ url = strip raw).
Proof.
  unfold load_api_config.
  destruct (cfg_api_keys cfg) as [[|k ks]|] eqn:Ek; simpl; try discriminate.
  destruct (negb (truthy (strip k)) && forallb _ ks) eqn:Eall; [discriminate|].
  destruct (cfg_api_url cfg) as [raw|] eqn:Eu;
    [|simpl; discriminate].
  destruct (truthy (strip raw)) eqn:Et; [|discriminate]. simpl.
  destruct (_ || _) eqn:Ed; [discriminate|].
  intros [= <- <-]. apply orb_false_iff in Ed as [Ed1 Ed2].
  split; [reflexivity|]. split; [simpl; lia|]. split; [|split; [|split; [|split; [|split]]]].
  - change (negb (truthy (strip k)) && forallb (fun x => negb (truthy (strip x))) ks)
      with (forallb (fun x => negb (truthy (strip x))) (k :: ks)) in Eall.
    destruct (existsb (fun x => truthy (strip x)) (k :: ks)) eqn:Ee.
    + apply existsb_exists in Ee as (x & Hx & Hxt). exists x.
      split; [exact Hx | apply truthy_true; exact Hxt].
    + exfalso. rewrite <- not_true_iff_false in Eall. apply Eall.
      apply forallb_forall. intros x Hx. apply negb_true_iff.
      destruct (truthy (strip x)) eqn:Ex; [|reflexivity].
      rewrite <- not_true_iff_false in Ee. exfalso. apply Ee.
      apply existsb_exists. exists x. auto.
  - intros E. apply keys_eqb_eq in E. unfold DEFAULT_KEYS in Ed1.
    simpl in Ed1, E. congruence.
  - apply truthy_true. exact Et.
  - apply strip_idem.
  - intros E. apply str_eqb_eq in E. congruence.
  - exists raw. auto.
Qed.

Lemma accepted_config_witness :
  1 <= length [lit "sk-1"; lit " "]
  /\ (exists k, In k [lit "sk-1"; lit " "] /\ strip k <> []).
Proof.
  destruct (accepted_config
              (ConfigFile (Some [lit "sk-1"; lit " "])
                          (Some (lit " https://service.example/api ")))
              [lit "sk-1"; lit " "] (lit "https://service.example/api")
              eq_refl) as (_ & H1 & H2 & _).
  split; [exact H1 | exact H2].
Defined.

End ConfigFacts.

(** ** One file: results and statistics *)

Module PipelineFacts.
Import Re Extractor Replacement Client Scheduler Logging Pipeline Observers.
Local Open Scope nat_scope.

Lemma concat_perm {A} (l l' : list (list A)) :
  Permutation l l' -> Permutation (concat l) (concat l').
Proof.
  induction 1 as [|x l l' _ IH|x y l|l l' l'' _ IH1 _ IH2]; simpl.
  - constructor.
  - apply Permutation_app_head. exact IH.
  - rewrite !app_assoc. apply Permutation_app_tail, Permutation_app_comm.
  - etransitivity; eassumption.
Qed.

Lemma lookup_all {A} (d : A) (l : list A) :
  List.map (fun j => match l !! j with Some r => r | None => d end)
           (seq 0 (length l)) = l.
Proof.
  induction l as [|x l IH]; [reflexivity|].
  simpl. f_equal. rewrite <- seq_shift, List.map_map. exact IH.
Qed.

Lemma log_success_counts clock mod_id file_path rs : forall lg,
  Forall (fun r => is_chinese (tr_original r) = false) rs ->
  let lg' := log_results clock mod_id file_path rs lg in
  success (log_stats lg') = (success (log_stats lg) + N.of_nat (length rs))%N
  /\ failed (log_stats lg') = failed (log_stats lg)
  /\ total (log_stats lg') = (total (log_stats lg) + N.of_nat (length rs))%N
  /\ length (log_entries lg') = length (log_entries lg) + length rs.
Proof.
  unfold log_results.
  induction rs as [|r rs IH]; intros lg H; simpl.
  - repeat split; lia.
  - inversion H as [|? ? Hr Hrs]; subst.
    destruct (IH (log_translation clock mod_id (tr_original r) (tr_translated r)
                    file_path (lit "Success") None lg) Hrs)
      as (H1 & H2 & H3 & H4).
    rewrite H1, H2, H3, H4. unfold log_translation. rewrite Hr.
    replace (str_eqb (lit "Success") (lit "Success")) with true by reflexivity.
    simpl. rewrite length_app. simpl. repeat split; lia.
Qed.

Lemma log_failure_counts clock mod_id file_path e lg :
  let lg' := log_translation clock mod_id [] [] file_path (lit "Failed") e lg in
  success (log_stats lg') = success (log_stats lg)
  /\ failed (log_stats lg') = (failed (log_stats lg) + 1)%N
  /\ total (log_stats lg') = (total (log_stats lg) + 1)%N.
Proof. unfold log_translation. simpl. auto. Qed.

Lemma extracted_not_chinese content f :
  In f (parse_translatable_content content) -> is_chinese (text f) = false.
Proof.
  unfold parse_translatable_content. rewrite filter_In. intros [_ H].
  apply negb_true_iff in H. unfold skipped in H.
  apply orb_false_iff in H as [H _]. apply orb_false_iff in H as [_ H]. exact H.
Qed.

(** A name matched letter by letter without regard to case holds no
    character with a meaning in a pattern, when none of these characters is
    a case variant of one of its letters. *)
Lemma ci_name_literal l t :
  forallb (fun m => forallb (fun p => negb (ci_lit p m)) l)
          (lit ".^$*+?{}[]\|()") = true ->
  same_by ci_lit l t -> pattern_literal t = true.
Proof.
  intros Hl Hs. unfold pattern_literal. apply forallb_forall. intros x Hx.
  destruct (pattern_meta x) eqn:Em; [|reflexivity]. exfalso.
  unfold pattern_meta in Em. apply existsb_exists in Em as (m & Hm & E).
  apply N.eqb_eq in E. subst m.
  destruct (ClientMore.same_by_chars _ _ _ _ Hs Hx) as (p & Hp & He).
  rewrite forallb_forall in Hl. specialize (Hl x Hm).
  rewrite forallb_forall in Hl. specialize (Hl p Hp).
  rewrite He in Hl. discriminate.
Qed.

Lemma extracted_tag_literal content f :
  In f (parse_translatable_content content) -> pattern_literal (tag f) = true.
Proof.
  unfold parse_translatable_content. rewrite filter_In. intros [Hin _].
  apply ExtractorFacts.fragment_shape in Hin as [[-> _]|[[H|[H|H]] _]].
  - reflexivity.
  - eapply ci_name_literal; [|exact H]. vm_compute. reflexivity.
  - eapply ci_name_literal; [|exact H]. vm_compute. reflexivity.
  - eapply ci_name_literal; [|exact H]. vm_compute. reflexivity.
Qed.

Lemma replacement_of_compiled t :
  pattern_literal (tr_tag t) = true ->
  Forall (fun pr => exists r, fst pr = Compiled r) (replacement_of t).
Proof.
  intros H. unfold replacement_of.
  destruct (if str_eqb _ _ then _ else _) as [ctx|].
  - destruct (sub _ _ ctx); constructor; [eexists; reflexivity | constructor].
  - unfold scalar_pattern. rewrite H.
    constructor; [eexists; reflexivity | constructor].
Qed.

(** The library is asked about the patterns handed to it as text only. *)
Lemma apply_all_compiled f g rs :
  Forall (fun pr => exists r, fst pr = Compiled r) rs ->
  forall c, apply_all f rs c = apply_all g rs c.
Proof.
  induction 1 as [|[p r] rs [q Hq] _ IH]; intros c; [reflexivity|].
  cbn [fst] in Hq. subst p. cbn [apply_all sub_pattern].
  destruct (sub q r c); [apply IH | reflexivity].
Qed.

Lemma batches_members {A} k (l : list A) x :
  In x (concat (batches k l)) -> In x l.
Proof.
  destruct k as [|k]; [intros []|].
  apply Permutation_in, SchedulerFacts.batches_permutation. lia.
Qed.

Section WithWorld.
Variable uni_word : char -> bool.
Variable clock : nat -> str.
Variable message : failure -> str.
Variable re_sub : str -> str -> str -> option str.

Local Abbreviation futures := (Pipeline.futures uni_word).
Local Abbreviation all_translations := (Pipeline.all_translations uni_word).
Local Abbreviation process_file :=
  (Pipeline.process_file uni_word clock message re_sub).
Local Abbreviation replace_translated_content :=
  (Replacement.replace_translated_content re_sub).

Lemma run_shard_sources t batch :
  List.map source_of (run_shard uni_word t batch) = batch.
Proof.
  unfold run_shard, process_batch.
  destruct (batch_translate _ _ _ _ _ _) as [[rs st'] ev] eqn:E.
  eapply ClientMore.batch_sources. exact E.
Qed.

Lemma futures_sources_aux (tl : list translator) : forall bl,
  length tl = length bl ->
  List.map source_of
    (concat (flat_map (fun tb : translator * list fragment =>
                         match snd tb with
                         | [] => []
                         | _ :: _ => [run_shard uni_word (fst tb) (snd tb)]
                         end) (combine tl bl)))
  = concat bl.
Proof.
  induction tl as [|t tl IH]; intros [|b bl] Hlen; simpl in *;
    try discriminate; [reflexivity|].
  injection Hlen as Hlen. destruct b as [|x b]; simpl.
  - apply IH. exact Hlen.
  - rewrite List.map_app, run_shard_sources, (IH bl Hlen). reflexivity.
Qed.

Lemma futures_sources translators matches :
  List.map source_of (concat (futures translators matches))
  = concat (batches (length translators) matches).
Proof.
  apply futures_sources_aux. rewrite SchedulerFacts.batches_length. reflexivity.
Qed.

Lemma all_translations_perm translators matches order :
  translators <> [] ->
  Permutation order (seq 0 (length (futures translators matches))) ->
  Permutation (List.map source_of (all_translations translators matches order))
              matches.
Proof.
  intros Ht Hp. unfold Pipeline.all_translations, completed.
  etransitivity.
  - apply Permutation_map, concat_perm, Permutation_map. exact Hp.
  - rewrite lookup_all, futures_sources.
    apply SchedulerFacts.batches_permutation.
    destruct translators; [congruence | simpl; lia].
Qed.

(** X17. Whatever the order in which the shards complete, the results handed to
    the replacement engine are the extracted fragments, each once, with its
    tag, source text and anchor. *)
Theorem every_fragment_gets_one_result translators matches order :
  translators <> [] ->
  Permutation order (seq 0 (length (futures translators matches))) ->
  Permutation (List.map source_of (all_translations translators matches order))
              matches
  /\ length (all_translations translators matches order) = length matches.
Proof.
  intros Ht Hp. pose proof (all_translations_perm _ _ _ Ht Hp) as H.
  split; [exact H|]. apply Permutation_length in H.
  rewrite length_map in H. exact H.
Qed.

Lemma all_translations_from_matches translators matches order r :
  In r (all_translations translators matches order) ->
  In (source_of r) matches.
Proof.
  unfold Pipeline.all_translations, completed. intros H.
  apply in_concat in H as (rs & Hrs & Hr).
  apply in_map_iff in Hrs as (j & <- & _).
  destruct (futures translators matches !! j) as [fj|] eqn:Ej; [|destruct Hr].
  apply (batches_members (length translators)).
  rewrite <- futures_sources. apply in_map. apply in_concat.
  exists fj. split; [|exact Hr].
  apply list_elem_of_In. eapply list_elem_of_lookup_2. exact Ej.
Qed.

(** X21. The tag of every fragment the extraction returns stands for itself
    in a pattern; the patterns of a file are therefore all compiled here,
    and what [process_file] writes and logs is the same however the library
    reads the patterns that are left to it. *)
Theorem file_patterns_are_literal mod_id file_path content translators order lg :
  (forall f, In f (parse_translatable_content content) ->
             pattern_literal (tag f) = true)
  /\ (forall re_sub1 re_sub2,
        Pipeline.process_file uni_word clock message re_sub1
          mod_id file_path content translators order lg
        = Pipeline.process_file uni_word clock message re_sub2
            mod_id file_path content translators order lg).
Proof.
  split; [intros f; apply extracted_tag_literal|].
  intros re_sub1 re_sub2. unfold Pipeline.process_file.
  destruct (parse_translatable_content content) as [|m ms] eqn:Em;
    [reflexivity|].
  destruct translators as [|t ts]; [reflexivity|].
  unfold Replacement.replace_translated_content.
  rewrite (apply_all_compiled re_sub1 re_sub2); [reflexivity|].
  apply Forall_flat_map. apply List.Forall_forall. intros r Hr.
  apply replacement_of_compiled.
  apply all_translations_from_matches in Hr. rewrite <- Em in Hr.
  apply extracted_tag_literal in Hr. exact Hr.
Qed.

(** X18. The statistics of one file.  Without fragments nothing is written or
    counted.  With fragments, every fragment is counted as a success, also
    when its translation failed and the source text stands in for it; the
    one failure counted is the file's, when no translator is configured or
    when the replacement raises, and then no output is written. *)
Theorem file_statistics mod_id file_path content translators order lg out lg' :
  Permutation order
    (seq 0 (length (futures translators (parse_translatable_content content)))) ->
  process_file mod_id file_path content translators order lg = (out, lg') ->
  let matches := parse_translatable_content content in
  let n := N.of_nat (length matches) in
  let s := log_stats lg in
  let s' := log_stats lg' in
  (matches = [] -> out = None /\ lg' = lg)
  /\ (matches <> [] -> translators = [] ->
      out = None /\ success s' = success s
      /\ failed s' = (failed s + 1)%N /\ total s' = (total s + 1)%N)
  /\ (matches <> [] -> translators <> [] ->
      out = replace_translated_content content
              (all_translations translators matches order)
      /\ success s' = (success s + n)%N
      /\ failed s' = (failed s + match out with Some _ => 0 | None => 1 end)%N
      /\ total s' = (total s + n + match out with Some _ => 0 | None => 1 end)%N)
  /\ (balanced s -> balanced s').
Proof.
  intros Hp Hrun matches n s s'. unfold Pipeline.process_file in Hrun.
  fold matches in Hrun, Hp.
  destruct matches as [|m ms] eqn:Em.
  - injection Hrun as <- <-. repeat split; try congruence; auto.
  - destruct translators as [|t ts] eqn:Et.
    + injection Hrun as <- <-.
      destruct (log_failure_counts clock mod_id file_path
                  (Some (message NoWorkers)) lg) as (H1 & H2 & H3).
      unfold s', s, balanced. rewrite H1, H2, H3.
      repeat split; try congruence; try discriminate; lia.
    + assert (Hne : t :: ts <> []) by discriminate.
      pose proof (all_translations_perm (t :: ts) (m :: ms) order Hne Hp) as Hperm.
      assert (Hlen : length (all_translations (t :: ts) (m :: ms) order)
                     = length (m :: ms)).
      { apply Permutation_length in Hperm. rewrite length_map in Hperm.
        exact Hperm. }
      assert (Hch : Forall (fun r => is_chinese (tr_original r) = false)
                      (all_translations (t :: ts) (m :: ms) order)).
      { apply List.Forall_forall. intros r Hr.
        apply (extracted_not_chinese content (source_of r)).
        fold matches. rewrite Em.
        eapply Permutation_in; [exact Hperm|].
        apply in_map. exact Hr. }
      destruct (log_success_counts clock mod_id file_path _ lg Hch)
        as (H1 & H2 & H3 & _).
      rewrite Hlen in H1, H3.
      destruct (replace_translated_content content _) as [o|] eqn:Er.
      * injection Hrun as <- <-. unfold s', s, n, balanced.
        rewrite H1, H2, H3.
        repeat split; try congruence; try discriminate; lia.
      * injection Hrun as <- <-.
        destruct (log_failure_counts clock mod_id file_path
                    (Some (message ReplacementRaised))
                    (log_results clock mod_id file_path
                       (all_translations (t :: ts) (m :: ms) order) lg))
          as (F1 & F2 & F3).
        unfold s', s, n, balanced. rewrite F1, F2, F3, H1, H2, H3.
        repeat split; try congruence; try discriminate; lia.
Qed.

End WithWorld.

(** X19. An original that holds a character of the range U+4E00 to U+9FFF is
    neither logged nor counted; any other original adds one entry and one
    to the total, and to the successes or to the failures by its status. *)
Theorem log_skips_chinese_originals
  clock mod_id original translated file_path status error lg :
  let lg' := log_translation clock mod_id original translated file_path
               status error lg in
  ((exists c, In c original /\ (19968 <= c <= 40959)%N) -> lg' = lg)
  /\ ((forall c, In c original -> ~ (19968 <= c <= 40959)%N) ->
      total (log_stats lg') = (total (log_stats lg) + 1)%N
      /\ length (log_entries lg') = length (log_entries lg) + 1
      /\ (status = lit "Success" ->
          success (log_stats lg') = (success (log_stats lg) + 1)%N
          /\ failed (log_stats lg') = failed (log_stats lg))
      /\ (status <> lit "Success" ->
          success (log_stats lg') = success (log_stats lg)
          /\ failed (log_stats lg') = (failed (log_stats lg) + 1)%N)).
Proof.
  intros lg'. unfold lg', log_translation.
  assert (Hin : forall c, chinese_char c = true <-> (19968 <= c <= 40959)%N).
  { intros c. unfold chinese_char. rewrite andb_true_iff, !N.leb_le. tauto. }
  split.
  - intros (c & Hc & Hr). destruct (is_chinese original) eqn:E; [reflexivity|].
    exfalso. apply ExtractorFacts.is_chinese_false in E.
    rewrite forallb_forall in E. specialize (E c Hc).
    apply Hin in Hr. rewrite Hr in E. discriminate.
  - intros Hall.
    assert (E : is_chinese original = false).
    { apply ExtractorFacts.is_chinese_false. apply forallb_forall.
      intros c Hc. apply negb_true_iff.
      destruct (chinese_char c) eqn:Ec; [|reflexivity].
      exfalso. apply (Hall c Hc). apply Hin. exact Ec. }
    rewrite E. destruct (str_eqb status (lit "Success")) eqn:Es; simpl;
      rewrite length_app; simpl.
    + apply ConfigFacts.str_eqb_eq in Es.
      repeat split; try lia; try reflexivity; congruence.
    + assert (status <> lit "Success").
      { intros Heq. apply ConfigFacts.str_eqb_eq in Heq. congruence. }
      repeat split; try lia; try reflexivity; congruence.
Qed.
Import Samples FileSamples.

Lemma every_fragment_gets_one_result_witness :
  Permutation
    (List.map source_of
       (Pipeline.all_translations no_word [t_ok; t_down] [frag_ab; frag_cd] [1; 0]))
    [frag_ab; frag_cd].
Proof.
  apply (every_fragment_gets_one_result no_word [t_ok; t_down]
           [frag_ab; frag_cd] [1; 0]).
  - discriminate.
  - apply perm_swap.
Defined.

Lemma file_statistics_witness :
  success (log_stats (snd (Pipeline.process_file no_word clock0 message0
                             re_sub_raises
                             (lit "mod") (lit "a.sbc") two_tooltips
                             [t_ok; t_down] [0; 1] lg0)))
  = 2%N.
Proof.
  destruct (Pipeline.process_file no_word clock0 message0 re_sub_raises
              (lit "mod") (lit "a.sbc") two_tooltips [t_ok; t_down] [0; 1] lg0)
    as [out lg'] eqn:E.
  destruct (file_statistics no_word clock0 message0 re_sub_raises
              (lit "mod") (lit "a.sbc")
              two_tooltips [t_ok; t_down] [0; 1] lg0 out lg')
    as (_ & _ & H & _).
  - apply Permutation_refl.
  - exact E.
  - destruct H as (_ & H & _); [discriminate | discriminate|].
    simpl. rewrite H. reflexivity.
Defined.

Lemma log_skips_chinese_originals_witness :
  log_translation clock0 (lit "mod") shitou (lit "x") (lit "a.sbc")
    (lit "Success") None lg0 = lg0.
Proof.
  destruct (log_skips_chinese_originals clock0 (lit "mod") shitou (lit "x")
              (lit "a.sbc") (lit "Success") None lg0) as [H _].
  apply H. exists 30707%N. split; [left; reflexivity | lia].
Defined.

End PipelineFacts.
